(** * atk-executor.js: log scanning, port forwarding URLs and command execution

    A shallow embedding of [src/atk-executor.js].  JavaScript strings are
    sequences of UTF-16 code units; regular-expression literals of the source
    are kept as syntax trees and run by a backtracking matcher that follows
    the priority order of ECMAScript's RegExp semantics. *)

From Stdlib Require Import NArith ZArith List String Ascii Bool Lia.
From stdpp Require Import base option list gmap strings pretty.

Import ListNotations.
Local Open Scope N_scope.
Local Open Scope list_scope.

(** ** JavaScript strings *)

Module Js.

(** A UTF-16 code unit. *)
Abbreviation char := N (only parsing).

(** A JavaScript string value. *)
Abbreviation jsstring := (list N) (only parsing).

Definition ch (a : ascii) : char := N_of_ascii a.

Fixpoint str (s : string) : jsstring :=
  match s with
  | EmptyString => []
  | String a s' => ch a :: str s'
  end.

(** [LF], used where the source writes the escape [\n]. *)
Definition LF : char := 10.

(** ECMAScript WhiteSpace and LineTerminator code points: the set matched
    by [\s] and stripped by [String.prototype.trim]. *)
Definition is_space (c : char) : bool :=
  (c =? 9) || (c =? 10) || (c =? 11) || (c =? 12) || (c =? 13) || (c =? 32)
  || (c =? 160) || (c =? 5760) || ((8192 <=? c) && (c <=? 8202))
  || (c =? 8232) || (c =? 8233) || (c =? 8239) || (c =? 8287)
  || (c =? 12288) || (c =? 65279).

(** LineTerminator: the code units [.] refuses. *)
Definition is_line_terminator (c : char) : bool :=
  (c =? 10) || (c =? 13) || (c =? 8232) || (c =? 8233).

(** [\d] is [0-9] only. *)
Definition is_digit (c : char) : bool := (48 <=? c) && (c <=? 57).

(** Canonicalize of a RegExp without the [u] flag, for the comparisons the
    source makes: every character written in an [/i] pattern is ASCII.  An
    ASCII letter is upper-cased; a code unit from 128 up is never mapped
    below 128 by Canonicalize, so leaving it unchanged gives the same
    answer against an ASCII pattern character. *)
Definition canonicalize (c : char) : char :=
  if (97 <=? c) && (c <=? 122) then c - 32 else c.

(** Truthiness of a value that is either [null]/[undefined] or a string. *)
Definition truthy (v : option jsstring) : bool :=
  match v with
  | Some (_ :: _) => true
  | _ => false
  end.

(** [a || b] on such values. *)
Definition or_else (v : option jsstring) (d : jsstring) : jsstring :=
  match v with
  | Some (c :: s) => c :: s
  | _ => d
  end.

Fixpoint take_while (p : char -> bool) (s : jsstring) : jsstring :=
  match s with
  | [] => []
  | c :: s' => if p c then c :: take_while p s' else []
  end.

Fixpoint drop_while (p : char -> bool) (s : jsstring) : jsstring :=
  match s with
  | [] => []
  | c :: s' => if p c then drop_while p s' else s
  end.

(** [String.prototype.trim]. *)
Definition trim (s : jsstring) : jsstring :=
  rev (drop_while is_space (rev (drop_while is_space s))).

(** Value of a decimal digit string, most significant digit first. *)
Definition decimal (s : jsstring) : N :=
  fold_left (fun acc c => 10 * acc + (c - 48)) s 0.

Definition hex_digit (c : char) : option N :=
  if is_digit c then Some (c - 48)
  else if (97 <=? c) && (c <=? 102) then Some (c - 87)
  else if (65 <=? c) && (c <=? 70) then Some (c - 55)
  else None.

Definition is_hex_digit (c : char) : bool :=
  match hex_digit c with Some _ => true | None => false end.

Definition hexadecimal (s : jsstring) : N :=
  fold_left (fun acc c => 16 * acc + default 0 (hex_digit c)) s 0.

(** [parseInt(s)] with the radix left out: leading white space is skipped,
    a sign is read, a [0x]/[0X] prefix selects radix 16, and the longest
    run of digits is converted; [None] is [NaN].  The result is the exact
    integer: the Number that JavaScript returns is that integer rounded to
    a double, and rounding is monotone and exact below 2^53, so comparing
    with 1000 and 65535 gives the same answers, and a value that passes
    the comparison is returned unrounded. *)
Definition parseInt (s : jsstring) : option Z :=
  let s := drop_while is_space s in
  let '(neg, s) :=
    match s with
    | c :: s' =>
        if c =? 45 then (true, s')
        else if c =? 43 then (false, s')
        else (false, s)
    | [] => (false, s)
    end in
  let decimal_digits :=
    match take_while is_digit s with
    | [] => None
    | ds => Some (decimal ds)
    end in
  let magnitude :=
    match s with
    | a :: b :: s' =>
        if (a =? 48) && ((b =? 120) || (b =? 88)) then
          match take_while is_hex_digit s' with
          | [] => None
          | ds => Some (hexadecimal ds)
          end
        else decimal_digits
    | _ => decimal_digits
    end in
  match magnitude with
  | Some n => Some (if neg then (- Z.of_N n)%Z else Z.of_N n)
  | None => None
  end.

End Js.

Export Js.

(** ** Regular expressions *)

Module RegExp.

(** One-character matchers: a pattern character, the class escapes [\d]
    and [\s], the dot, the members of a bracketed class [[ab]] and a
    negated bracketed class [[^a]]. *)
Inductive charset : Type :=
| CsChar (c : char)
| CsDigit
| CsSpace
| CsAny
| CsUnion (a b : charset)
| CsNot (a : charset).

Inductive regex : Type :=
| Empty
| Char (cs : charset)
| Seq (r1 r2 : regex)
| Star (greedy : bool) (r : regex)
| Group (i : nat) (r : regex).

(** [r+] *)
Definition Plus (greedy : bool) (r : regex) : regex := Seq r (Star greedy r).

(** A run of pattern characters. *)
Fixpoint Lit (s : jsstring) : regex :=
  match s with
  | [] => Empty
  | c :: s' => Seq (Char (CsChar c)) (Lit s')
  end.

(** The terms of a pattern, left to right. *)
Fixpoint Cat (rs : list regex) : regex :=
  match rs with
  | [] => Empty
  | r :: rs' => Seq r (Cat rs')
  end.

(** A pattern with its [i] flag. *)
Record pattern : Type := Pattern { source : regex; ignoreCase : bool }.

(** A pattern character [p] against an input character [c]. *)
Definition char_eq (ic : bool) (p c : char) : bool :=
  if ic then canonicalize c =? canonicalize p else c =? p.

Fixpoint cs_match (ic : bool) (cs : charset) (c : char) : bool :=
  match cs with
  | CsChar p => char_eq ic p c
  | CsDigit => is_digit c
  | CsSpace => is_space c
  | CsAny => negb (is_line_terminator c)
  | CsUnion a b => cs_match ic a c || cs_match ic b c
  | CsNot a => negb (cs_match ic a c)
  end.

(** Captures: group number and captured text, latest first. *)
Definition captures := list (nat * jsstring).

Fixpoint capture (i : nat) (c : captures) : option jsstring :=
  match c with
  | [] => None
  | (j, s) :: c' => if Nat.eqb i j then Some s else capture i c'
  end.

(** A matcher state: the input still to be read, and the captures. *)
Definition mstate : Type := jsstring * captures.

(** Iteration of a matcher [step].  An iteration that consumes nothing is
    refused, as ECMAScript does, so the length of the input bounds the
    number of iterations and [n] never runs out when it starts there. *)
Fixpoint star_loop (step : jsstring -> captures -> list mstate)
    (greedy : bool) (n : nat) (s : jsstring) (c : captures) : list mstate :=
  match n with
  | O => [(s, c)]
  | S n' =>
      let more :=
        flat_map (fun st : mstate =>
                    if Nat.ltb (length (fst st)) (length s)
                    then star_loop step greedy n' (fst st) (snd st)
                    else [])
                 (step s c) in
      if greedy then more ++ [(s, c)] else (s, c) :: more
  end.

(** All the ways [r] matches at the front of [s], in the order in which a
    backtracking matcher tries them. *)
Fixpoint matches (ic : bool) (r : regex) (s : jsstring) (c : captures)
    : list mstate :=
  match r with
  | Empty => [(s, c)]
  | Char cs =>
      match s with
      | x :: s' => if cs_match ic cs x then [(s', c)] else []
      | [] => []
      end
  | Seq r1 r2 =>
      flat_map (fun st : mstate => matches ic r2 (fst st) (snd st))
               (matches ic r1 s c)
  | Star greedy r1 => star_loop (matches ic r1) greedy (length s) s c
  | Group i r1 =>
      map (fun st : mstate =>
             (fst st, (i, take (length s - length (fst st)) s) :: snd st))
          (matches ic r1 s c)
  end.

(** The result of a successful match: [m.index], [m[0]] and the groups. *)
Record match_result : Type :=
  MatchResult { index : nat; matched : jsstring; groups : captures }.

(** The match at the front of [s], if there is one. *)
Definition match_here (p : pattern) (s : jsstring) : option (jsstring * captures) :=
  match matches (ignoreCase p) (source p) s [] with
  | [] => None
  | (rest, c) :: _ => Some (take (length s - length rest) s, c)
  end.

(** The scan of RegExpBuiltinExec for a pattern without [g] and [y]:
    start positions are tried from [i] to the end of the input. *)
Fixpoint exec_from (p : pattern) (i : nat) (s : jsstring) : option match_result :=
  match match_here p s with
  | Some (m, c) => Some (MatchResult i m c)
  | None =>
      match s with
      | [] => None
      | _ :: s' => exec_from p (S i) s'
      end
  end.

(** [s.match(p)] for a pattern without the [g] flag. *)
Definition String_match (s : jsstring) (p : pattern) : option match_result :=
  exec_from p 0 s.

(** [m[i]] of a match result. *)
Definition nth_group (i : nat) (m : match_result) : option jsstring :=
  match i with
  | O => Some (matched m)
  | _ => capture i (groups m)
  end.

End RegExp.

Export RegExp.

(** ** The log scanner *)

(** [/https:\/\/login\.microsoftonline\.com\/[^\s]+/] *)
Definition urlPattern : pattern :=
  Pattern (Cat [Lit (str "https://login.microsoftonline.com/");
                Plus true (Char (CsNot CsSpace))])
          false.

(** [/https:\/\/[^\s]*login[^\s]*/] *)
Definition altPattern : pattern :=
  Pattern (Cat [Lit (str "https://");
                Star true (Char (CsNot CsSpace));
                Lit (str "login");
                Star true (Char (CsNot CsSpace))])
          false.

(** [extractOAuthUrl]; [None] as input or result is [null]. *)
Definition extractOAuthUrl (output : option jsstring) : option jsstring :=
  match output with
  | None | Some [] => None
  | Some output =>
      match String_match output urlPattern with
      | Some m => Some (matched m)
      | None =>
          match String_match output altPattern with
          | Some altMatch => Some (matched altMatch)
          | None => None
          end
      end
  end.

(** The [patterns] array of [extractAuthPort]. *)
Definition patterns : list pattern :=
  [ Pattern (Cat [Lit (str "localhost:"); Group 1 (Plus true (Char CsDigit))]) false;
    Pattern (Cat [Lit (str "127.0.0.1:"); Group 1 (Plus true (Char CsDigit))]) false;
    Pattern (Cat [Lit (str "port "); Group 1 (Plus true (Char CsDigit))]) true;
    Pattern (Cat [Lit (str "server"); Star false (Char CsAny);
                  Group 1 (Plus true (Char CsDigit))]) true ].

(** [port > 1000 && port < 65535]; false on [NaN]. *)
Definition port_in_range (port : option Z) : bool :=
  match port with
  | Some p => (1000 <? p)%Z && (p <? 65535)%Z
  | None => false
  end.

(** The [for] loop of [extractAuthPort] over the patterns still to try. *)
Fixpoint scanPatterns (ps : list pattern) (output : jsstring) : Z :=
  match ps with
  | [] => 3978%Z
  | pat :: ps' =>
      match String_match output pat with
      | Some m =>
          if truthy (nth_group 1 m) then
            let port := parseInt (default [] (nth_group 1 m)) in
            if port_in_range port then default 0%Z port
            else scanPatterns ps' output
          else scanPatterns ps' output
      | None => scanPatterns ps' output
      end
  end.

(** [extractAuthPort]; [None] as input is [null]. *)
Definition extractAuthPort (output : option jsstring) : Z :=
  match output with
  | None | Some [] => 3978%Z
  | Some output => scanPatterns patterns output
  end.

Definition sampleLog : jsstring :=
  str "Listening on http://localhost:3978" ++ [LF]
  ++ str "Visit https://login.microsoftonline.com/common/oauth2/v2.0/authorize?client_id=abc to continue".


(** ** What the patterns find, said without regular expressions *)

Module Scan.

(** [s] begins with the characters of [l], letter case ignored under [ic]. *)
Fixpoint starts_with (ic : bool) (l s : jsstring) : bool :=
  match l, s with
  | [], _ => true
  | p :: l', x :: s' => char_eq ic p x && starts_with ic l' s'
  | _ :: _, [] => false
  end.

(** [l] occurs somewhere in [s]. *)
Fixpoint contains (l s : jsstring) : bool :=
  starts_with false l s
  || match s with
     | [] => false
     | _ :: s' => contains l s'
     end.

(** The result of [f] at the leftmost position of [s] where it has one. *)
Fixpoint first_at {A : Type} (f : jsstring -> option A) (s : jsstring) : option A :=
  match f s with
  | Some a => Some a
  | None =>
      match s with
      | [] => None
      | _ :: s' => first_at f s'
      end
  end.

Definition non_space (c : char) : bool := negb (is_space c).

(** An occurrence of [lit<digits>] at the front of [t]: the digits, all of
    them. *)
Definition digits_after (ic : bool) (lit t : jsstring) : option jsstring :=
  if starts_with ic lit t then
    match take_while is_digit (drop (length lit) t) with
    | [] => None
    | d => Some d
    end
  else None.

(** The first run of digits of [t] with no line terminator before it. *)
Definition line_digits (t : jsstring) : option jsstring :=
  match take_while is_digit
          (drop_while (fun c => negb (is_line_terminator c) && negb (is_digit c)) t) with
  | [] => None
  | d => Some d
  end.

(** An occurrence of [server...<digits>] at the front of [t]. *)
Definition server_digits (t : jsstring) : option jsstring :=
  if starts_with true (str "server") t
  then line_digits (drop (length (str "server")) t)
  else None.

(** An occurrence, at the front of [t], of [pre] followed by at least one
    character that is not white space: [pre] and all that follows it up to
    the next white space or the end of the text. *)
Definition prefixed_token (pre t : jsstring) : option jsstring :=
  if starts_with false pre t then
    match take_while non_space (drop (length pre) t) with
    | [] => None
    | tok => Some (pre ++ tok)
    end
  else None.

(** An occurrence, at the front of [t], of [pre] followed by characters
    other than white space among which [word] occurs: [pre] and all that
    follows it up to the next white space or the end of the text. *)
Definition prefixed_run_with (pre word t : jsstring) : option jsstring :=
  if starts_with false pre t then
    let run := take_while non_space (drop (length pre) t) in
    if contains word run then Some (pre ++ run) else None
  else None.

(** The suffixes a greedy iteration of a one-character matcher offers:
    longest run first, one character given back at a time. *)
Fixpoint greedy_run (p : char -> bool) (s : jsstring) (c : captures) : list mstate :=
  match s with
  | [] => [([], c)]
  | x :: t => if p x then greedy_run p t c ++ [(s, c)] else [(s, c)]
  end.

(** The same for a lazy iteration: shortest run first. *)
Fixpoint lazy_run (p : char -> bool) (s : jsstring) (c : captures) : list mstate :=
  (s, c) :: match s with
            | [] => []
            | x :: t => if p x then lazy_run p t c else []
            end.

End Scan.

Export Scan.

(** ** The scanner, said without regular expressions *)

Module ScanSpec.

(** [port > 1000 && port < 65535] on the value of a digit string. *)
Definition valid_port (d : jsstring) : bool :=
  (1000 <? decimal d) && (decimal d <? 65535).

(** What each of the four patterns captures at its first occurrence. *)
Definition localhost_capture (s : jsstring) : option jsstring :=
  first_at (digits_after false (str "localhost:")) s.
Definition loopback_capture (s : jsstring) : option jsstring :=
  first_at (digits_after false (str "127.0.0.1:")) s.
Definition port_capture (s : jsstring) : option jsstring :=
  first_at (digits_after true (str "port ")) s.
Definition server_capture (s : jsstring) : option jsstring :=
  first_at server_digits s.

(** The value of the first capture that is a valid port, or 3978. *)
Fixpoint first_valid_port (caps : list (option jsstring)) : Z :=
  match caps with
  | [] => 3978%Z
  | Some d :: caps' =>
      if valid_port d then Z.of_N (decimal d) else first_valid_port caps'
  | None :: caps' => first_valid_port caps'
  end.

Definition login_host : jsstring := str "https://login.microsoftonline.com/".

(** The first login-host URL with something after the host prefix, else the
    first https URL with [login] in it. *)
Definition first_login_url (s : jsstring) : option jsstring :=
  match first_at (prefixed_token login_host) s with
  | Some u => Some u
  | None => first_at (prefixed_run_with (str "https://") (str "login")) s
  end.

(** An occurrence of [pre] at the front of [t], with whatever follows it up
    to the next white space, be it nothing. *)
Definition prefixed_run (pre t : jsstring) : option jsstring :=
  if starts_with false pre t
  then Some (pre ++ take_while non_space (drop (length pre) t))
  else None.

(** The reading under which a bare host prefix counts as a login URL. *)
Definition first_login_url_bare (s : jsstring) : option jsstring :=
  match first_at (prefixed_run login_host) s with
  | Some u => Some u
  | None => first_at (prefixed_run_with (str "https://") (str "login")) s
  end.

End ScanSpec.

Export ScanSpec.

(** ** Port forwarding URLs *)

(** A template literal's rendering of a Number that is an integer (of
    magnitude below 10^21, where JavaScript still writes all the digits). *)
Definition Number_toString (n : Z) : jsstring := str (pretty n).

(** [generatePortForwardingUrl], reading [process.env] from [env]. *)
Definition generatePortForwardingUrl (env : gmap string jsstring) (port : Z) : jsstring :=
  let codespaceName := env !! "CODESPACE_NAME"%string in
  if truthy codespaceName then
    str "https://" ++ default [] codespaceName ++ str "-" ++ Number_toString port
      ++ str ".app.github.dev"
  else
    let domain := env !! "GITHUB_CODESPACES_PORT_FORWARDING_DOMAIN"%string in
    if truthy domain then
      str "https://" ++ default [] domain ++ str "-" ++ Number_toString port
        ++ str ".githubpreview.dev"
    else
      str "http://localhost:" ++ Number_toString port.

(** ** Global replacement *)

(** [s.replace(p, rep)] for a pattern [p] with the [g] flag and a
    replacement without [$]: matches are replaced from left to right, and
    after an empty match one character is copied. [n] bounds the number
    of steps. *)
Fixpoint replace_loop (p : pattern) (rep : jsstring) (n : nat) (s : jsstring) : jsstring :=
  match n with
  | O => s
  | S n' =>
      match match_here p s, s with
      | Some ([], _), [] => rep
      | Some ([], _), x :: s' => rep ++ x :: replace_loop p rep n' s'
      | Some (m, _), _ => rep ++ replace_loop p rep n' (drop (length m) s)
      | None, [] => []
      | None, x :: s' => x :: replace_loop p rep n' s'
      end
  end.

Definition String_replace_all (s : jsstring) (p : pattern) (rep : jsstring) : jsstring :=
  replace_loop p rep (S (length s)) s.

(** ** Running commands *)

Module Process.

(** The values [exitCode] can hold. *)
Inductive value : Type :=
| Null
| Num (z : Z)
| Text (s : jsstring).

Definition value_truthy (v : value) : bool :=
  match v with
  | Null | Num 0 | Text [] => false
  | _ => true
  end.

(** The object both command runners build. *)
Record result : Type :=
  Result { success : bool; stdout : jsstring; stderr : jsstring; exitCode : value }.

(** The error [execAsync] rejects with. *)
Record exec_error : Type :=
  ExecError { message : jsstring;
              error_stdout : option jsstring;
              error_stderr : option jsstring;
              code : value }.

(** How [await execAsync(...)] ends. *)
Inductive exec_outcome : Type :=
| Fulfilled (out err : jsstring)
| Failed (error : exec_error).

Inductive stream : Type := StdoutStream | StderrStream.

(** What a spawned child tells its listeners: a chunk on one of its
    pipes (already [toString]ed), ['close'] with the exit code ([None]
    is [null]: killed by a signal), or ['error']. *)
Inductive child_event : Type :=
| Data (from : stream) (chunk : jsstring)
| Close (exit : option Z)
| Error (msg : jsstring).

Inductive promise (A E : Type) : Type :=
| Pending
| Resolved (a : A)
| Rejected (e : E).
Arguments Pending {A E}.
Arguments Resolved {A E} a.
Arguments Rejected {A E} e.

(** [resolve] and [reject] act on a pending promise only. *)
Definition settle {A E} (p new : promise A E) : promise A E :=
  match p with
  | Pending => new
  | _ => p
  end.

(** The closure of [executeCommandStreaming]: the two accumulators, what
    was written to the console, and the promise returned. *)
Record streaming : Type :=
  Streaming { acc_stdout : jsstring;
              acc_stderr : jsstring;
              written : list (stream * jsstring);
              returned : promise result result }.

Definition out_mark : jsstring := [55357; 56548] ++ str " ".
Definition err_mark : jsstring := [55357; 56548] ++ str " ERROR: ".

Definition exit_value (exit : option Z) : value :=
  match exit with
  | Some z => Num z
  | None => Null
  end.

(** [code === 0] *)
Definition is_zero (exit : option Z) : bool :=
  match exit with
  | Some 0%Z => true
  | _ => false
  end.

(** The four listeners of [executeCommandStreaming]. *)
Definition on_event (st : streaming) (ev : child_event) : streaming :=
  match ev with
  | Data StdoutStream output =>
      Streaming (acc_stdout st ++ output) (acc_stderr st)
                (written st ++ [(StdoutStream, out_mark ++ output)]) (returned st)
  | Data StderrStream output =>
      Streaming (acc_stdout st) (acc_stderr st ++ output)
                (written st ++ [(StderrStream, err_mark ++ output)]) (returned st)
  | Close exit =>
      Streaming (acc_stdout st) (acc_stderr st) (written st)
        (settle (returned st)
           (Resolved (Result (is_zero exit) (trim (acc_stdout st))
                             (trim (acc_stderr st)) (exit_value exit))))
  | Error msg =>
      Streaming (acc_stdout st) (acc_stderr st) (written st)
        (settle (returned st)
           (Rejected (Result false (acc_stdout st) msg (Num 1))))
  end.

End Process.

Export Process.

(** ** The script and its surroundings *)

Module Script.

(** What the script can change: the files that can be read, with what
    reading them gives, and what was written to the console. *)
Record world : Type :=
  World { files : gmap jsstring jsstring; console : list (stream * jsstring) }.

(** What the modelled code can throw. *)
Inductive thrown : Type :=
| ExecFailure (error : exec_error)
| FsError (msg : jsstring).

(** [error.message], [error.stdout], [error.stderr] and [error.code] of a
    caught value. *)
Definition thrown_message (e : thrown) : jsstring :=
  match e with
  | ExecFailure error => message error
  | FsError msg => msg
  end.

Definition thrown_stdout (e : thrown) : option jsstring :=
  match e with
  | ExecFailure error => error_stdout error
  | FsError _ => None
  end.

Definition thrown_stderr (e : thrown) : option jsstring :=
  match e with
  | ExecFailure error => error_stderr error
  | FsError _ => None
  end.

Definition thrown_code (e : thrown) : value :=
  match e with
  | ExecFailure error => code error
  | FsError _ => Null
  end.

(** How a piece of code ends: with a value, or by throwing. *)
Inductive completion (A : Type) : Type :=
| Returned (a : A)
| Thrown (e : thrown).
Arguments Returned {A} a.
Arguments Thrown {A} e.

(** Code that runs in a world. *)
Definition M (A : Type) : Type := world -> completion A * world.

Definition throw {A} (e : thrown) : M A := fun w => (Thrown e, w).

#[export] Instance M_ret : MRet M := fun A (a : A) w => (Returned a, w).

#[export] Instance M_bind : MBind M := fun A B (k : A -> M B) (m : M A) w =>
  match m w with
  | (Returned a, w') => k a w'
  | (Thrown e, w') => (Thrown e, w')
  end.

(** [try { body } catch (error) { handler }] *)
Definition try_catch {A} (body : M A) (handler : thrown -> M A) : M A :=
  fun w =>
    match body w with
    | (Returned a, w') => (Returned a, w')
    | (Thrown e, w') => handler e w'
    end.

Definition write (to : stream) (text : jsstring) : M unit :=
  fun w => (Returned tt, World (files w) (console w ++ [(to, text)])).

(** [console.log(a)] and [console.log(a, b)]. *)
Definition console_log (a : jsstring) : M unit := write StdoutStream (a ++ [LF]).
Definition console_log2 (a b : jsstring) : M unit :=
  write StdoutStream (a ++ str " " ++ b ++ [LF]).
Definition console_error (a : jsstring) : M unit := write StderrStream (a ++ [LF]).

Definition no_such_file (path : jsstring) : thrown :=
  FsError (str "ENOENT: no such file or directory, open '" ++ path ++ str "'").

(** [fs.readFile(path, 'utf8')] *)
Definition fs_readFile (path : jsstring) : M jsstring :=
  fun w =>
    match files w !! path with
    | Some content => (Returned content, w)
    | None => (Thrown (no_such_file path), w)
    end.

(** How [console.log] writes a Number that is not its first argument:
    through [util.inspect], in yellow when the console writes with
    colours (on a terminal), plainly otherwise. *)
Definition inspect_number (colors : bool) (n : Z) : jsstring :=
  if colors then [27] ++ str "[33m" ++ Number_toString n ++ [27] ++ str "[39m"
  else Number_toString n.

(** The [options] argument of the command runners. *)
Record options : Type := Options { cwd : option jsstring; timeout : option Z }.

Definition no_options : options := Options None None.

Section Script.

(** [process.env], [process.cwd()], [path.join], the operating system
    behind [execAsync] (command, working directory, timeout), and what
    happens to the world while the script sleeps. *)
Variable env : gmap string jsstring.
Variable process_cwd : jsstring.
Variable path_join : jsstring -> jsstring -> jsstring.
Variable execAsync : jsstring -> jsstring -> Z -> world -> exec_outcome * world.
Variable meanwhile : Z -> world -> world.

(** Whether [console.log] writes with colours; the message with which the
    operating system refuses to make a directory, if it does; and what
    it does of a copy: the content it copies, which is what the source
    holds by then, or the message with which it refuses. *)
Variable colors : bool.
Variable os_mkdir : jsstring -> world -> option jsstring.
Variable os_copyFile : jsstring -> jsstring -> world -> jsstring + jsstring.

(** [fs.mkdir(path, { recursive: true })]: the files are kept by full
    path, so a directory that is made leaves them as they are. *)
Definition fs_mkdir (path : jsstring) : M unit :=
  fun w =>
    match os_mkdir path w with
    | Some msg => (Thrown (FsError msg), w)
    | None => (Returned tt, w)
    end.

(** [fs.copyFile(src, dest)] *)
Definition fs_copyFile (src dest : jsstring) : M unit :=
  fun w =>
    match os_copyFile src dest w with
    | inl content => (Returned tt, World (<[dest := content]> (files w)) (console w))
    | inr msg => (Thrown (FsError msg), w)
    end.

Definition WORKSPACE_ROOT : jsstring :=
  or_else (env !! "WORKSPACE_ROOT"%string) (str "/workspaces/m365-test").
Definition AGENT_PATH : jsstring :=
  or_else (env !! "ATK_AGENT_PATH"%string) (str "/workspaces/m365-test/agents/myagent").
Definition LOGS_PATH : jsstring := path_join WORKSPACE_ROOT (str "logs").

(** [await execAsync(command, {cwd, timeout, ...})] *)
Definition await_execAsync (command workingDir : jsstring) (ms : Z)
    : M (jsstring * jsstring) :=
  fun w =>
    match execAsync command workingDir ms w with
    | (Fulfilled out err, w') => (Returned (out, err), w')
    | (Failed error, w') => (Thrown (ExecFailure error), w')
    end.

(** [await new Promise(resolve => setTimeout(resolve, ms))] *)
Definition sleep (ms : Z) : M unit := fun w => (Returned tt, meanwhile ms w).

Definition announce (what command workingDir : jsstring) : M unit :=
  console_log ([55357; 56615] ++ what ++ command) ;;
  if decide (workingDir = process_cwd) then mret tt
  else console_log ([55357; 56513] ++ str " Working directory: " ++ workingDir).

(** [options.cwd || process.cwd()] and [options.timeout || 30000] *)
Definition workingDir_of (opts : options) : jsstring :=
  or_else (cwd opts) process_cwd.
Definition timeout_of (opts : options) : Z :=
  match timeout opts with
  | Some t => if (t =? 0)%Z then 30000%Z else t
  | None => 30000%Z
  end.

(** [executeCommand] *)
Definition executeCommand (command : jsstring) (opts : options) : M result :=
  let workingDir := workingDir_of opts in
  let ms := timeout_of opts in
  announce (str " Executing: ") command workingDir ;;
  try_catch
    (io ← await_execAsync command workingDir ms;
     mret (Result true (trim (fst io)) (trim (snd io)) (Num 0)))
    (fun error =>
       console_error ([10060] ++ str " Command failed: " ++ thrown_message error) ;;
       mret (Result false
                   (or_else (thrown_stdout error) [])
                   (or_else (thrown_stderr error) (thrown_message error))
                   (if value_truthy (thrown_code error) then thrown_code error
                    else Num 1))).

(** [executeCommandStreaming] on a child that emits [events]: the closure
    once these events have been delivered, with the promise returned. *)
Definition executeCommandStreaming (command : jsstring) (opts : options)
    (events : list child_event) : streaming :=
  let workingDir := workingDir_of opts in
  let announced :=
    (StdoutStream, [55357; 56615] ++ str " Executing (streaming): " ++ command ++ [LF])
    :: (if decide (workingDir = process_cwd) then []
        else [(StdoutStream,
               [55357; 56513] ++ str " Working directory: " ++ workingDir ++ [LF])]) in
  fold_left on_event events (Streaming [] [] announced Pending).

(** [/[:.]/g] *)
Definition colonOrPeriod : pattern :=
  Pattern (Char (CsUnion (CsChar (ch ":")) (CsChar (ch ".")))) false.

(** The name of the archival copy, from [new Date().toISOString()]. *)
Definition archivePath (iso : jsstring) : jsstring :=
  let timestamp := String_replace_all iso colonOrPeriod (str "-") in
  path_join LOGS_PATH (str "auth-" ++ timestamp ++ str ".log").

Definition authLogPath : jsstring := path_join AGENT_PATH (str "auth.log").

Definition authCommand : jsstring :=
  str "nohup atk auth login m365 > auth.log 2>&1 & sleep 2".

Definition psCommand : jsstring :=
  str "ps aux | grep atk || echo " ++ [34] ++ str "No ATK processes found" ++ [34].

(** Step 5 of [testATKExecution] and the wait of step 6: start the
    authentication command and sleep. *)
Definition startAuthentication : M unit :=
  console_log ([10] ++ str "5" ++ [65039; 8419] ++ str "  Testing ATK authentication...") ;;
  console_log (str "   Command: nohup atk auth login m365 > auth.log 2>&1 &") ;;
  fs_mkdir LOGS_PATH ;;
  authResult ← executeCommand authCommand (Options (Some AGENT_PATH) None);
  (if success authResult
   then console_log ([9989] ++ str " ATK auth command started")
   else console_log2 ([9888; 65039] ++ str " ATK auth start result:") (stderr authResult)) ;;
  console_log ([10] ++ str "6" ++ [65039; 8419] ++ str "  Reading authentication log...") ;;
  console_log (str "   " ++ [9203] ++ str " Waiting 8 seconds for auth server to start...") ;;
  sleep 8000.

(** The [try] block of step 6: read the log, scan it, print, copy. *)
Definition scanAuthLog (logFile : jsstring) : M unit :=
  logContent ← fs_readFile authLogPath;
  console_log ([9989] ++ str " Auth log contents:") ;;
  console_log (str "---START AUTH LOG---") ;;
  console_log logContent ;;
  console_log (str "---END AUTH LOG---") ;;
  let oauthUrl := extractOAuthUrl (Some logContent) in
  let authPort := extractAuthPort (Some logContent) in
  if truthy oauthUrl then
    console_log ([10] ++ str "7" ++ [65039; 8419] ++ str "  OAuth URL extraction successful!") ;;
    console_log2 ([9989] ++ str " OAuth URL:") (default [] oauthUrl) ;;
    console_log2 ([55357; 56588] ++ str " Auth server port:")
                 (inspect_number colors authPort) ;;
    let publicAuthUrl := generatePortForwardingUrl env authPort in
    console_log2 ([55356; 57104] ++ str " Public auth URL:") publicAuthUrl ;;
    console_log ([10; 55356; 57263] ++ str " Authentication Instructions:") ;;
    console_log (str "1. Open the OAuth URL above in your browser") ;;
    console_log (str "2. Complete Microsoft 365 authentication") ;;
    console_log (str "3. Or access the auth server via the public URL") ;;
    console_log (str "4. Use VS Code port forwarding if URLs don't work") ;;
    fs_copyFile authLogPath logFile ;;
    console_log ([55357; 56516] ++ str " Log saved to: " ++ logFile)
  else
    console_log ([9888; 65039] ++ str " No OAuth URL found in auth log") ;;
    console_log2 (str "Log preview:") (take 500 logContent).

(** The [catch] block of step 6. *)
Definition reportUnreadable (error : thrown) : M unit :=
  console_log2 ([10060] ++ str " Could not read auth log:") (thrown_message error) ;;
  console_log ([55357; 56589] ++ str " Checking for running ATK processes...") ;;
  psResult ← executeCommand psCommand no_options;
  if success psResult
  then console_log2 (str "Process status:") (stdout psResult)
  else mret tt.

(** Steps 5 and 6 of [testATKExecution]; [iso] is what
    [new Date().toISOString()] returns. *)
Definition authenticationSteps (iso : jsstring) : M unit :=
  let logFile := archivePath iso in
  startAuthentication ;;
  try_catch (scanAuthLog logFile) reportUnreadable.

End Script.

End Script.

Export Script.

(** ** The command runners and the script, said plainly *)

Module ScriptSpec.

(** What a child wrote on one of its pipes, chunk after chunk. *)
Definition collected (on : stream) (chunks : list (stream * jsstring)) : jsstring :=
  flat_map (fun c : stream * jsstring =>
              match fst c, on with
              | StdoutStream, StdoutStream | StderrStream, StderrStream => snd c
              | _, _ => []
              end)
           chunks.

(** The events of a child that writes [chunks]. *)
Definition data_events (chunks : list (stream * jsstring)) : list child_event :=
  map (fun c : stream * jsstring => Data (fst c) (snd c)) chunks.

(** A colon or a period becomes a hyphen. *)
Definition hyphenate (c : char) : char :=
  if (c =? ch ":") || (c =? ch ".") then ch "-" else c.

(** A system in which commands succeed silently and nothing else runs,
    with the plain joining of POSIX paths. *)
Definition posix_join (dir name : jsstring) : jsstring := dir ++ str "/" ++ name.
Definition quiet_exec (command workingDir : jsstring) (ms : Z) (w : world)
    : exec_outcome * world := (Fulfilled [] [], w).
Definition still (ms : Z) (w : world) : world := w.

(** An operating system that makes every directory and copies every file
    that is there, and one that refuses every copy. *)
Definition willing_mkdir (path : jsstring) (w : world) : option jsstring := None.
Definition faithful_copyFile (src dest : jsstring) (w : world) : jsstring + jsstring :=
  match files w !! src with
  | Some content => inl content
  | None => inr (thrown_message (no_such_file src))
  end.
Definition refusing_copyFile (src dest : jsstring) (w : world) : jsstring + jsstring :=
  inr (str "EACCES: permission denied, copyfile").

(** A world whose [auth.log] holds no URL. *)
Definition world_without_url : world :=
  World {[ str "/workspaces/m365-test/agents/myagent/auth.log"
           := str "Starting authentication..." ]} [].

(** A world whose [auth.log] is the sample log. *)
Definition world_with_url : world :=
  World {[ str "/workspaces/m365-test/agents/myagent/auth.log" := sampleLog ]} [].

(** The time of a run, as [toISOString] writes it. *)
Definition sample_time : jsstring := str "2026-01-02T03:04:05.678Z".

End ScriptSpec.

Export ScriptSpec.

(** ** Shapes of texts, results and event traces *)

Module Shapes.

(** [u] occurs in [s]. *)
Definition substring (u s : jsstring) : Prop := exists pre post, s = pre ++ u ++ post.

(** Neither the first nor the last character of [s] is white space. *)
Definition is_trimmed (s : jsstring) : bool :=
  negb (from_option is_space false (head s))
  && negb (from_option is_space false (last s)).

(** An event that is a chunk of output. *)
Definition is_data (ev : child_event) : bool :=
  match ev with
  | Data _ _ => true
  | _ => false
  end.



(** What the ['data'] listeners write to the console for an event. *)
Definition echo (ev : child_event) : list (stream * jsstring) :=
  match ev with
  | Data StdoutStream output => [(StdoutStream, out_mark ++ output)]
  | Data StderrStream output => [(StderrStream, err_mark ++ output)]
  | _ => []
  end.

(** What an event adds to the text collected from a pipe. *)
Definition payload (on : stream) (ev : child_event) : jsstring :=
  match ev, on with
  | Data StdoutStream output, StdoutStream => output
  | Data StderrStream output, StderrStream => output
  | _, _ => []
  end.

(** What a settled promise of the streaming runner holds. *)
Definition settled_well (p : promise result result) : Prop :=
  match p with
  | Pending => True
  | Resolved r =>
      (success r = true <-> exitCode r = Num 0)
      /\ is_trimmed (stdout r) = true /\ is_trimmed (stderr r) = true
  | Rejected r => success r = false /\ exitCode r = Num 1
  end.


End Shapes.

Export Shapes.

(** * Proofs *)

(** ** Elementary facts on strings *)

Section StringFacts.

Implicit Types (s t l : jsstring) (p : char -> bool).

Lemma take_drop_while p s : take_while p s ++ drop_while p s = s.
Proof.
  induction s as [|x s IH]; simpl; [reflexivity|].
  destruct (p x); simpl; [now rewrite IH | reflexivity].
Qed.

Lemma length_drop_while p s : (length (drop_while p s) <= length s)%nat.
Proof.
  rewrite <- (take_drop_while p s) at 2. rewrite length_app. lia.
Qed.

Lemma take_length_drop_while p s :
  take (length s - length (drop_while p s)) s = take_while p s.
Proof.
  rewrite <- (take_drop_while p s) at 1 3.
  rewrite length_app.
  replace (length (take_while p s) + length (drop_while p s)
           - length (drop_while p s))%nat
    with (length (take_while p s)) by lia.
  now rewrite take_app_length.
Qed.

Lemma starts_with_split l s :
  starts_with false l s = true -> s = l ++ drop (length l) s.
Proof.
  revert s; induction l as [|a l IH]; intros [|x s]; simpl; try easy.
  unfold char_eq. intros H. apply andb_true_iff in H as [Hx Hl].
  apply N.eqb_eq in Hx. subst. f_equal. now apply IH.
Qed.

Lemma starts_with_app l s : starts_with false l (l ++ s) = true.
Proof.
  induction l as [|a l IH]; simpl; [reflexivity|].
  unfold char_eq. now rewrite N.eqb_refl.
Qed.

Lemma starts_with_length ic l s :
  starts_with ic l s = true -> (length l <= length s)%nat.
Proof.
  revert s; induction l as [|a l IH]; intros [|x s]; simpl; try easy; try lia.
  intros H. apply andb_true_iff in H as [_ H]. apply IH in H. lia.
Qed.

(** A literal whose characters all satisfy [p] only needs the [p]-run of
    the text to be recognised. *)
Lemma starts_with_take_while p l s :
  forallb p l = true ->
  starts_with false l (take_while p s) = starts_with false l s.
Proof.
  revert s; induction l as [|a l IH]; intros [|x s] Hl; simpl; try reflexivity.
  simpl in Hl. apply andb_true_iff in Hl as [Ha Hl].
  unfold char_eq.
  destruct (p x) eqn:Hx; simpl.
  - unfold char_eq. now rewrite IH.
  - destruct (N.eqb_spec x a) as [->|]; [congruence | reflexivity].
Qed.

Lemma drop_while_drop_literal p l s :
  forallb p l = true -> starts_with false l s = true ->
  drop_while p (drop (length l) s) = drop_while p s.
Proof.
  revert s; induction l as [|a l IH]; intros [|x s] Hl; simpl; try easy.
  simpl in Hl. apply andb_true_iff in Hl as [Ha Hl].
  unfold char_eq. intros H. apply andb_true_iff in H as [Hx H].
  apply N.eqb_eq in Hx. subst x. rewrite Ha. now apply IH.
Qed.

Lemma first_at_ext {A} (f g : jsstring -> option A) s :
  (forall t, f t = g t) -> first_at f s = first_at g s.
Proof.
  intros E; induction s as [|x s IH]; simpl; rewrite E; [reflexivity|].
  now rewrite IH.
Qed.

Lemma first_at_fmap {A B} (h : A -> B) (f : jsstring -> option A) s :
  first_at (fun t => h <$> f t) s = h <$> first_at f s.
Proof.
  induction s as [|x s IH]; simpl; destruct (f _); simpl; try reflexivity.
  apply IH.
Qed.

(** [first_at] returns the result at the leftmost position that has one. *)
Lemma first_at_Some {A} (f : jsstring -> option A) s a :
  first_at f s = Some a <->
  exists pre t, s = pre ++ t /\ f t = Some a /\
    forall pre' t', s = pre' ++ t' -> (length pre' < length pre)%nat -> f t' = None.
Proof.
  induction s as [|x s IH]; simpl.
  - destruct (f []) eqn:E; split.
    + intros [= ->]. exists [], []. repeat split; [easy|]. simpl; lia.
    + intros ([|] & t & H & Ht & _); [|easy]. simpl in H; subst. congruence.
    + easy.
    + intros ([|] & t & H & Ht & _); [|easy]. simpl in H; subst. congruence.
  - destruct (f (x :: s)) eqn:E; split.
    + intros [= ->]. exists [], (x :: s). repeat split; [easy|]. simpl; lia.
    + intros ([|y pre] & t & H & Ht & Hmin).
      * simpl in H; subst. congruence.
      * specialize (Hmin [] (x :: s) eq_refl). simpl in Hmin.
        rewrite Hmin in E by lia. easy.
    + intros H. apply IH in H as (pre & t & -> & Ht & Hmin).
      exists (x :: pre), t. repeat split; [easy|].
      intros [|y pre'] t' H Hlen; simpl in *.
      * now subst.
      * injection H as -> H. apply (Hmin pre'); [easy | lia].
    + intros ([|y pre] & t & H & Ht & Hmin).
      * simpl in H; subst. congruence.
      * simpl in H. injection H as -> ->. apply IH.
        exists pre, t. repeat split; [easy|].
        intros pre' t' H Hlen. apply (Hmin (y :: pre')); simpl; [now f_equal | lia].
Qed.

Lemma first_at_None {A} (f : jsstring -> option A) s :
  first_at f s = None <-> forall pre t, s = pre ++ t -> f t = None.
Proof.
  induction s as [|x s IH]; simpl.
  - destruct (f []) eqn:E; split; try easy.
    + intros H. now rewrite (H [] []) in E.
    + intros _ [|] t H; [|easy]. simpl in H. now subst.
  - destruct (f (x :: s)) eqn:E; split; try easy.
    + intros H. now rewrite (H [] (x :: s)) in E.
    + intros H [|y pre] t Hs; simpl in Hs.
      * now subst.
      * injection Hs as -> Hs. now apply (proj1 IH H pre).
    + intros H. apply IH. intros pre t ->. now apply (H (x :: pre)).
Qed.

Lemma take_while_all (p : char -> bool) s : forallb p (take_while p s) = true.
Proof.
  induction s as [|x s IH]; simpl; [reflexivity|].
  destruct (p x) eqn:E; simpl; [now rewrite E | reflexivity].
Qed.

Lemma take_while_id (p : char -> bool) s : forallb p s = true -> take_while p s = s.
Proof.
  induction s as [|x s IH]; simpl; [reflexivity|].
  intros H. apply andb_true_iff in H as [-> H]. now rewrite IH.
Qed.

End StringFacts.

(** ** What the matcher does on the shapes of pattern the source uses *)

Section MatcherFacts.

Implicit Types (s t l : jsstring) (c : captures) (p : char -> bool).

Lemma flat_map_unit (l : list mstate) :
  flat_map (fun st : mstate => [(fst st, snd st)]) l = l.
Proof.
  induction l as [|[a b] l IH]; simpl; [reflexivity | now rewrite IH].
Qed.

Lemma head_app {A} (l1 l2 : list A) :
  head (l1 ++ l2) = match head l1 with Some a => Some a | None => head l2 end.
Proof. destruct l1; reflexivity. Qed.

Lemma matches_Lit ic l s c :
  matches ic (Lit l) s c =
  if starts_with ic l s then [(drop (length l) s, c)] else [].
Proof.
  revert s; induction l as [|a l IH]; intros s; simpl; [reflexivity|].
  destruct s as [|x s]; simpl; [reflexivity|].
  destruct (char_eq ic a x); simpl; [|reflexivity].
  now rewrite app_nil_r, IH.
Qed.

Lemma star_greedy_class ic cs n s c :
  (length s <= n)%nat ->
  star_loop (matches ic (Char cs)) true n s c = greedy_run (cs_match ic cs) s c.
Proof.
  revert s; induction n as [|n IH]; intros s Hn.
  - destruct s; simpl in *; [reflexivity | lia].
  - destruct s as [|x s]; simpl; [reflexivity|].
    destruct (cs_match ic cs x); simpl; [|reflexivity].
    rewrite app_nil_r.
    replace (length s <? S (length s))%nat with true
      by (symmetry; apply Nat.ltb_lt; lia).
    rewrite IH by (simpl in Hn; lia). reflexivity.
Qed.

Lemma star_lazy_class ic cs n s c :
  (length s <= n)%nat ->
  star_loop (matches ic (Char cs)) false n s c = lazy_run (cs_match ic cs) s c.
Proof.
  revert s; induction n as [|n IH]; intros s Hn.
  - destruct s; simpl in *; [reflexivity | lia].
  - destruct s as [|x s]; simpl; [reflexivity|].
    destruct (cs_match ic cs x); simpl; [|reflexivity].
    rewrite app_nil_r.
    replace (length s <? S (length s))%nat with true
      by (symmetry; apply Nat.ltb_lt; lia).
    rewrite IH by (simpl in Hn; lia). reflexivity.
Qed.

Lemma matches_Star_greedy ic cs s c :
  matches ic (Star true (Char cs)) s c = greedy_run (cs_match ic cs) s c.
Proof. simpl. now apply star_greedy_class. Qed.

Lemma matches_Star_lazy ic cs s c :
  matches ic (Star false (Char cs)) s c = lazy_run (cs_match ic cs) s c.
Proof. simpl. now apply star_lazy_class. Qed.

Lemma matches_Plus_greedy ic cs s c :
  matches ic (Plus true (Char cs)) s c =
  match s with
  | x :: t => if cs_match ic cs x then greedy_run (cs_match ic cs) t c else []
  | [] => []
  end.
Proof.
  unfold Plus.
  change (matches ic (Seq (Char cs) (Star true (Char cs))) s c)
    with (flat_map (fun st : mstate => matches ic (Star true (Char cs)) (fst st) (snd st))
                   (matches ic (Char cs) s c)).
  destruct s as [|x t]; simpl matches at 2; [reflexivity|].
  destruct (cs_match ic cs x); [|reflexivity].
  cbn [flat_map fst snd]. now rewrite app_nil_r, matches_Star_greedy.
Qed.

(** A greedy run stops, at first, where the characters stop matching. *)
Lemma greedy_run_head p s c :
  head (greedy_run p s c) = Some (drop_while p s, c).
Proof.
  induction s as [|x t IH]; simpl; [reflexivity|].
  destruct (p x); [|reflexivity]. now rewrite head_app, IH.
Qed.

(** The group [(\d+)]: what it leaves and what it captures. *)
Lemma head_digit_group ic s c :
  head (matches ic (Group 1 (Plus true (Char CsDigit))) s c) =
  match take_while is_digit s with
  | [] => None
  | d => Some (drop_while is_digit s, (1%nat, d) :: c)
  end.
Proof.
  cbn [matches]. fold (Plus true (Char CsDigit)).
  rewrite matches_Plus_greedy.
  destruct s as [|x t]; [reflexivity|]. cbn [cs_match take_while drop_while].
  destruct (is_digit x) eqn:Hx; [|reflexivity].
  pose proof (greedy_run_head is_digit t c) as H.
  destruct (greedy_run is_digit t c) as [|[r c'] tl]; [discriminate|].
  injection H as -> ->. cbn [map head fst snd].
  pose proof (take_length_drop_while is_digit (x :: t)) as E.
  simpl take_while in E. simpl drop_while in E. rewrite Hx in E.
  now rewrite E.
Qed.

(** After lazily skipping characters of a line, [(\d+)] captures the first
    run of digits of that line. *)
Lemma head_lazy_then_digits ic s c :
  head (flat_map (fun st : mstate =>
                    matches ic (Group 1 (Plus true (Char CsDigit))) (fst st) (snd st))
                 (lazy_run (cs_match ic CsAny) s c)) =
  match line_digits s with
  | Some d =>
      Some (drop_while is_digit
              (drop_while (fun x => negb (is_line_terminator x) && negb (is_digit x)) s),
            (1%nat, d) :: c)
  | None => None
  end.
Proof.
  unfold line_digits.
  induction s as [|x t IH].
  - reflexivity.
  - cbn [lazy_run flat_map fst snd]. rewrite head_app, head_digit_group.
    cbn [take_while drop_while cs_match].
    destruct (is_digit x) eqn:Hx.
    + rewrite andb_false_r. cbn [take_while drop_while]. now rewrite Hx.
    + rewrite andb_true_r.
      destruct (is_line_terminator x) eqn:Hl; cbn [negb].
      * cbn [take_while flat_map]. now rewrite Hx.
      * apply IH.
Qed.

End MatcherFacts.

(** ** The patterns of the scanner, one by one *)

Section PatternFacts.

Implicit Types (s t l d : jsstring) (c : captures).

Lemma is_digit_range x : is_digit x = true <-> 48 <= x <= 57.
Proof.
  unfold is_digit. rewrite andb_true_iff, !N.leb_le. reflexivity.
Qed.

Lemma digit_not_space x : is_digit x = true -> is_space x = false.
Proof.
  intros H. apply is_digit_range in H. unfold is_space.
  repeat match goal with
  | |- context [?a =? ?b] =>
      replace (a =? b) with false by (symmetry; apply N.eqb_neq; lia)
  | |- context [8192 <=? x] =>
      replace (8192 <=? x) with false by (symmetry; apply N.leb_gt; lia)
  end.
  reflexivity.
Qed.

(** On a non-empty string of digits [parseInt] is the decimal value. *)
Lemma parseInt_digits d :
  d <> [] -> forallb is_digit d = true -> parseInt d = Some (Z.of_N (decimal d)).
Proof.
  destruct d as [|x d]; [easy|]. intros _ H.
  pose proof H as Hall. simpl in H. apply andb_true_iff in H as [Hx Hd].
  unfold parseInt. simpl drop_while. rewrite (digit_not_space x Hx).
  pose proof (proj1 (is_digit_range x) Hx) as Rx.
  replace (x =? 45) with false by (symmetry; apply N.eqb_neq; lia).
  replace (x =? 43) with false by (symmetry; apply N.eqb_neq; lia).
  rewrite (take_while_id is_digit (x :: d) Hall).
  destruct d as [|y d]; [reflexivity|].
  simpl in Hd. apply andb_true_iff in Hd as [Hy _].
  pose proof (proj1 (is_digit_range y) Hy) as Ry.
  replace (y =? 120) with false by (symmetry; apply N.eqb_neq; lia).
  replace (y =? 88) with false by (symmetry; apply N.eqb_neq; lia).
  rewrite andb_false_r. reflexivity.
Qed.

Lemma match_here_head p t :
  match_here p t =
  (fun st : mstate => (take (length t - length (fst st)) t, snd st))
    <$> head (matches (ignoreCase p) (source p) t []).
Proof.
  unfold match_here.
  destruct (matches (ignoreCase p) (source p) t []) as [|[r c] tl]; reflexivity.
Qed.

Lemma matches_Cat_one ic r s c : matches ic (Cat [r]) s c = matches ic r s c.
Proof.
  cbn [Cat matches]. apply flat_map_unit.
Qed.

Lemma matches_Cat_Lit ic l rs s c :
  matches ic (Cat (Lit l :: rs)) s c =
  if starts_with ic l s then matches ic (Cat rs) (drop (length l) s) c else [].
Proof.
  change (matches ic (Cat (Lit l :: rs)) s c)
    with (flat_map (fun st : mstate => matches ic (Cat rs) (fst st) (snd st))
                   (matches ic (Lit l) s c)).
  rewrite matches_Lit. destruct (starts_with ic l s); [|reflexivity].
  cbn [flat_map fst snd]. apply app_nil_r.
Qed.

(** [lit(\d+)] at the front of [t] captures the digits after [lit]. *)
Lemma capture_digits_after ic l t :
  (fun mc : jsstring * captures => capture 1 (snd mc))
    <$> match_here (Pattern (Cat [Lit l; Group 1 (Plus true (Char CsDigit))]) ic) t
  = Some <$> digits_after ic l t.
Proof.
  rewrite match_here_head. cbn [source ignoreCase].
  rewrite matches_Cat_Lit. unfold digits_after.
  destruct (starts_with ic l t); [|reflexivity].
  rewrite matches_Cat_one, head_digit_group.
  destruct (take_while is_digit (drop (length l) t)); reflexivity.
Qed.

(** [server.*?(\d+)] at the front of [t] captures the first digits of the
    line after [server]. *)
Lemma capture_server_digits t :
  (fun mc : jsstring * captures => capture 1 (snd mc))
    <$> match_here (Pattern (Cat [Lit (str "server"); Star false (Char CsAny);
                                  Group 1 (Plus true (Char CsDigit))]) true) t
  = Some <$> server_digits t.
Proof.
  rewrite match_here_head. cbn [source ignoreCase].
  rewrite matches_Cat_Lit. unfold server_digits.
  destruct (starts_with true (str "server") t); [|reflexivity].
  set (u := drop (length (str "server")) t).
  change (matches true (Cat [Star false (Char CsAny); Group 1 (Plus true (Char CsDigit))]) u [])
    with (flat_map (fun st : mstate =>
                      matches true (Cat [Group 1 (Plus true (Char CsDigit))]) (fst st) (snd st))
                   (matches true (Star false (Char CsAny)) u [])).
  rewrite matches_Star_lazy.
  rewrite (flat_map_ext _ (fun st : mstate =>
             matches true (Group 1 (Plus true (Char CsDigit))) (fst st) (snd st)))
    by (intros st; apply matches_Cat_one).
  rewrite head_lazy_then_digits.
  destruct (line_digits u); reflexivity.
Qed.

Lemma digits_after_digits ic l t d :
  digits_after ic l t = Some d -> d <> [] /\ forallb is_digit d = true.
Proof.
  unfold digits_after. destruct (starts_with ic l t); [|easy].
  pose proof (take_while_all is_digit (drop (length l) t)) as H.
  destruct (take_while is_digit (drop (length l) t)); [easy|].
  intros [= <-]. easy.
Qed.

Lemma server_digits_digits t d :
  server_digits t = Some d -> d <> [] /\ forallb is_digit d = true.
Proof.
  unfold server_digits, line_digits. destruct (starts_with true _ t); [|easy].
  match goal with |- context [take_while is_digit ?u] =>
    pose proof (take_while_all is_digit u) as H;
    destruct (take_while is_digit u); [easy|]
  end.
  intros [= <-]. easy.
Qed.

(** The scan over start positions is [first_at] on the match at a position. *)
Lemma exec_from_first_at {B} (g : jsstring * captures -> B) p i s :
  (fun m => g (matched m, groups m)) <$> exec_from p i s
  = first_at (fun t => g <$> match_here p t) s.
Proof.
  revert i; induction s as [|x s IH]; intros i; simpl.
  - destruct (match_here p []) as [[m c]|]; reflexivity.
  - destruct (match_here p (x :: s)) as [[m c]|]; [reflexivity|]. apply IH.
Qed.

End PatternFacts.

Section ScannerFacts.

Implicit Types (s t l d : jsstring) (c : captures).

(** One turn of the loop of [extractAuthPort], for a pattern whose group 1
    is known to capture what [f] describes. *)
Lemma scanPatterns_step (f : jsstring -> option jsstring) p ps s :
  (forall t, (fun mc : jsstring * captures => capture 1 (snd mc)) <$> match_here p t
             = Some <$> f t) ->
  (forall t d, f t = Some d -> d <> [] /\ forallb is_digit d = true) ->
  scanPatterns (p :: ps) s =
  match first_at f s with
  | Some d => if valid_port d then Z.of_N (decimal d) else scanPatterns ps s
  | None => scanPatterns ps s
  end.
Proof.
  intros Hcap Hdig.
  pose proof (exec_from_first_at
                (fun mc : jsstring * captures => capture 1 (snd mc)) p 0 s) as E.
  rewrite (first_at_ext _ (fun t => Some <$> f t)) in E by exact Hcap.
  rewrite first_at_fmap in E.
  cbn [scanPatterns]. unfold String_match.
  destruct (exec_from p 0 s) as [m|]; simpl in E.
  - destruct (first_at f s) as [d|] eqn:Ef; [|discriminate].
    simpl in E. injection E as E.
    apply first_at_Some in Ef as (pre & t & _ & Ht & _).
    destruct (Hdig t d Ht) as [Hne Hall].
    unfold nth_group. rewrite E.
    destruct d as [|x d]; [easy|]. cbn [truthy default from_option id].
    rewrite (parseInt_digits (x :: d) Hne Hall).
    unfold port_in_range, valid_port. cbn [default from_option id].
    replace (1000 <? Z.of_N (decimal (x :: d)))%Z with (1000 <? decimal (x :: d)).
    2:{ destruct (N.ltb_spec 1000 (decimal (x :: d)));
        destruct (Z.ltb_spec 1000 (Z.of_N (decimal (x :: d)))); try reflexivity; lia. }
    replace (Z.of_N (decimal (x :: d)) <? 65535)%Z with (decimal (x :: d) <? 65535).
    2:{ destruct (N.ltb_spec (decimal (x :: d)) 65535);
        destruct (Z.ltb_spec (Z.of_N (decimal (x :: d))) 65535); try reflexivity; lia. }
    reflexivity.
  - destruct (first_at f s); [discriminate | reflexivity].
Qed.

Lemma scanPatterns_first_valid s :
  scanPatterns patterns s =
  first_valid_port [localhost_capture s; loopback_capture s;
                    port_capture s; server_capture s].
Proof.
  unfold patterns.
  rewrite (scanPatterns_step (digits_after false (str "localhost:")))
    by (apply capture_digits_after || apply digits_after_digits).
  rewrite (scanPatterns_step (digits_after false (str "127.0.0.1:")))
    by (apply capture_digits_after || apply digits_after_digits).
  rewrite (scanPatterns_step (digits_after true (str "port ")))
    by (apply capture_digits_after || apply digits_after_digits).
  rewrite (scanPatterns_step server_digits)
    by (apply capture_server_digits || apply server_digits_digits).
  reflexivity.
Qed.

Lemma scanPatterns_range ps s :
  (1000 < scanPatterns ps s < 65535)%Z.
Proof.
  induction ps as [|p ps IH]; simpl; [lia|].
  destruct (String_match s p) as [m|]; [|exact IH].
  destruct (truthy (capture 1 (groups m))); [|exact IH].
  destruct (parseInt (default [] (capture 1 (groups m)))) as [z|]; simpl; [|exact IH].
  destruct (Z.ltb_spec 1000 z); simpl; [|exact IH].
  destruct (Z.ltb_spec z 65535); simpl; [lia | exact IH].
Qed.

End ScannerFacts.

Section UrlFacts.

Implicit Types (s t u w l : jsstring) (c : captures).

Lemma take_past_prefix l u (r : jsstring) :
  (length r <= length u)%nat ->
  take (length (l ++ u) - length r) (l ++ u) = l ++ take (length u - length r) u.
Proof.
  intros H. rewrite length_app.
  replace (length l + length u - length r)%nat
    with (length l + (length u - length r))%nat by lia.
  rewrite take_app. rewrite take_ge by lia. f_equal. f_equal. lia.
Qed.

(** The text matched when [l] is read and a run of characters other than
    white space is then read to its end. *)
Lemma take_literal_run l t :
  starts_with false l t = true ->
  take (length t - length (drop_while non_space (drop (length l) t))) t
  = l ++ take_while non_space (drop (length l) t).
Proof.
  intros H. pose proof (starts_with_split l t H) as E.
  remember (drop (length l) t) as u eqn:Hu. clear Hu.
  subst t. rewrite take_past_prefix by apply length_drop_while.
  now rewrite take_length_drop_while.
Qed.

(** [urlPattern] at the front of [t]. *)
Lemma matched_urlPattern t :
  fst <$> match_here urlPattern t = prefixed_token login_host t.
Proof.
  rewrite match_here_head. unfold urlPattern. cbn [source ignoreCase].
  fold login_host. rewrite matches_Cat_Lit. unfold prefixed_token.
  destruct (starts_with false login_host t) eqn:Hpre; [|reflexivity].
  rewrite matches_Cat_one, matches_Plus_greedy.
  change (cs_match false (CsNot CsSpace)) with non_space.
  pose proof (take_literal_run login_host t Hpre) as E.
  destruct (drop (length login_host) t) as [|x u]; [reflexivity|].
  simpl take_while in *. simpl drop_while in E.
  destruct (non_space x) eqn:Hx; [|reflexivity].
  pose proof (greedy_run_head non_space u []) as H.
  destruct (greedy_run non_space u []) as [|[r c'] tl]; [discriminate|].
  injection H as -> ->. cbn [head fmap option_fmap option_map fst snd].
  now rewrite E.
Qed.

(** After a greedy run of characters other than white space, a word made of
    such characters is found if and only if the run contains it, and what
    follows the word is then read to the end of the run. *)
Lemma head_run_then_word w u c :
  w <> [] -> forallb non_space w = true ->
  head (flat_map (fun st : mstate =>
                    matches false (Cat [Lit w; Star true (Char (CsNot CsSpace))])
                            (fst st) (snd st))
                 (greedy_run non_space u c))
  = if contains w (take_while non_space u)
    then Some (drop_while non_space u, c) else None.
Proof.
  intros Hw Hall.
  assert (Hk : forall v, head (matches false (Cat [Lit w; Star true (Char (CsNot CsSpace))]) v c)
                 = if starts_with false w v
                   then Some (drop_while non_space (drop (length w) v), c) else None).
  { intros v. rewrite matches_Cat_Lit. destruct (starts_with false w v); [|reflexivity].
    rewrite matches_Cat_one, matches_Star_greedy.
    change (cs_match false (CsNot CsSpace)) with non_space.
    apply greedy_run_head. }
  induction u as [|x u IH].
  - cbn [greedy_run flat_map fst snd take_while contains].
    rewrite app_nil_r, Hk. rewrite orb_false_r.
    destruct w; [easy | reflexivity].
  - cbn [greedy_run take_while drop_while].
    destruct (non_space x) eqn:Hx.
    + rewrite flat_map_app, head_app, IH.
      cbn [contains].
      destruct (contains w (take_while non_space u)) eqn:Hc.
      * now rewrite orb_true_r.
      * rewrite orb_false_r. cbn [flat_map fst snd]. rewrite app_nil_r, Hk.
        pose proof (starts_with_take_while non_space w (x :: u) Hall) as E.
        simpl take_while in E. rewrite Hx in E. rewrite E.
        destruct (starts_with false w (x :: u)) eqn:Hs; [|reflexivity].
        rewrite (drop_while_drop_literal non_space w (x :: u) Hall Hs).
        simpl. now rewrite Hx.
    + cbn [flat_map fst snd contains]. rewrite app_nil_r, Hk.
      destruct w as [|a w]; [easy|].
      simpl in Hall. apply andb_true_iff in Hall as [Ha _].
      cbn [starts_with]. unfold char_eq.
      destruct (N.eqb_spec x a) as [->|]; [congruence | reflexivity].
Qed.

(** [altPattern] at the front of [t]. *)
Lemma matched_altPattern t :
  fst <$> match_here altPattern t
  = prefixed_run_with (str "https://") (str "login") t.
Proof.
  rewrite match_here_head. unfold altPattern. cbn [source ignoreCase].
  rewrite matches_Cat_Lit. unfold prefixed_run_with.
  destruct (starts_with false (str "https://") t) eqn:Hpre; [|reflexivity].
  pose proof (take_literal_run (str "https://") t Hpre) as E.
  set (u := drop (length (str "https://")) t) in *.
  change (matches false (Cat [Star true (Char (CsNot CsSpace)); Lit (str "login");
                              Star true (Char (CsNot CsSpace))]) u [])
    with (flat_map (fun st : mstate =>
                      matches false (Cat [Lit (str "login");
                                          Star true (Char (CsNot CsSpace))])
                              (fst st) (snd st))
                   (matches false (Star true (Char (CsNot CsSpace))) u [])).
  rewrite matches_Star_greedy.
  change (cs_match false (CsNot CsSpace)) with non_space.
  rewrite head_run_then_word by easy.
  destruct (contains (str "login") (take_while non_space u)); [|reflexivity].
  cbn [fmap option_fmap option_map fst snd]. now rewrite E.
Qed.

Lemma String_match_matched s p :
  matched <$> String_match s p = first_at (fun t => fst <$> match_here p t) s.
Proof. apply (exec_from_first_at fst). Qed.

Lemma extractOAuthUrl_first_login_url s :
  extractOAuthUrl (Some s) = first_login_url s.
Proof.
  unfold first_login_url.
  rewrite <- (first_at_ext _ _ s matched_urlPattern).
  rewrite <- (first_at_ext _ _ s matched_altPattern).
  rewrite <- !String_match_matched.
  destruct s as [|x s]; [reflexivity|].
  cbn [extractOAuthUrl].
  destruct (String_match (x :: s) urlPattern); [reflexivity|].
  destruct (String_match (x :: s) altPattern); reflexivity.
Qed.

End UrlFacts.


(** ** What the descriptions mean *)

Section Meaning.

Implicit Types (s t u w l : jsstring).

(** [contains w s] holds exactly when [w] occurs in [s]. *)
Lemma contains_occurs w s :
  contains w s = true <-> exists a b, s = a ++ w ++ b.
Proof.
  induction s as [|x s IH]; simpl.
  - rewrite orb_false_r. split.
    + intros H. apply starts_with_split in H. exists [], (drop (length w) []). exact H.
    + intros (a & b & H). symmetry in H.
      apply app_eq_nil in H as [-> H]. apply app_eq_nil in H as [-> ->]. reflexivity.
  - rewrite orb_true_iff, IH. split.
    + intros [H | (a & b & ->)].
      * apply starts_with_split in H. exists [], (drop (length w) (x :: s)). exact H.
      * exists (x :: a), b. reflexivity.
    + intros ([|y a] & b & H); simpl in H.
      * left. rewrite H. apply starts_with_app.
      * right. injection H as -> ->. exists a, b. reflexivity.
Qed.

Lemma take_while_stops (p : char -> bool) s :
  match drop_while p s with
  | [] => True
  | x :: _ => p x = false
  end.
Proof.
  induction s as [|x s IH]; simpl; [exact I|].
  destruct (p x) eqn:E; [exact IH | exact E].
Qed.

Lemma take_while_app_stop (p : char -> bool) s r :
  forallb p s = true ->
  match r with [] => True | x :: _ => p x = false end ->
  take_while p (s ++ r) = s.
Proof.
  intros Hs Hr. induction s as [|x s IH]; simpl.
  - destruct r as [|y r]; simpl; [reflexivity|]. now rewrite Hr.
  - simpl in Hs. apply andb_true_iff in Hs as [-> Hs]. now rewrite IH.
Qed.

(** A login-host URL at the front of [t]: the host prefix, then a
    non-empty token free of white space that ends where the text ends or
    white space begins. *)
Lemma prefixed_token_meaning pre t u :
  prefixed_token pre t = Some u <->
  exists tok rest,
    t = pre ++ tok ++ rest /\ u = pre ++ tok /\ tok <> [] /\
    forallb non_space tok = true /\
    match rest with [] => True | x :: _ => is_space x = true end.
Proof.
  unfold prefixed_token. split.
  - destruct (starts_with false pre t) eqn:Hp; [|easy].
    apply starts_with_split in Hp.
    pose proof (take_drop_while non_space (drop (length pre) t)) as E.
    pose proof (take_while_all non_space (drop (length pre) t)) as Hall.
    pose proof (take_while_stops non_space (drop (length pre) t)) as Hstop.
    destruct (take_while non_space (drop (length pre) t)) as [|x tok] eqn:Htok; [easy|].
    intros [= <-]. exists (x :: tok), (drop_while non_space (drop (length pre) t)).
    repeat split; try easy.
    + now rewrite E.
    + destruct (drop_while non_space (drop (length pre) t)); [exact I|].
      unfold non_space in Hstop. now apply negb_false_iff in Hstop.
  - intros (tok & rest & -> & -> & Hne & Hall & Hrest).
    rewrite starts_with_app, drop_app_length.
    rewrite take_while_app_stop; [destruct tok; easy | exact Hall |].
    destruct rest; [exact I|]. unfold non_space. now rewrite Hrest.
Qed.

Lemma drop_while_app_stop (p : char -> bool) s r :
  forallb p s = true ->
  match r with [] => True | x :: _ => p x = false end ->
  drop_while p (s ++ r) = r.
Proof.
  intros Hs Hr. induction s as [|x s IH]; simpl.
  - destruct r as [|y r]; simpl; [reflexivity|]. now rewrite Hr.
  - simpl in Hs. apply andb_true_iff in Hs as [-> Hs]. now apply IH.
Qed.

(** [take_while p s] is the longest prefix of [s] whose characters all
    satisfy [p]. *)
Lemma take_while_meaning (p : char -> bool) s d :
  take_while p s = d <->
  exists rest, s = d ++ rest /\ forallb p d = true /\
               match rest with [] => True | x :: _ => p x = false end.
Proof.
  split.
  - intros <-. exists (drop_while p s). split; [now rewrite take_drop_while|].
    split; [apply take_while_all | apply take_while_stops].
  - intros (rest & -> & Hd & Hr). now apply take_while_app_stop.
Qed.

(** [lit<digits>] at the front of [t]: the literal, then a non-empty run
    of digits taken to its end. *)
Lemma digits_after_meaning ic lit t d :
  digits_after ic lit t = Some d <->
  starts_with ic lit t = true /\ d <> [] /\ forallb is_digit d = true /\
  exists rest, drop (length lit) t = d ++ rest /\
               match rest with [] => True | x :: _ => is_digit x = false end.
Proof.
  unfold digits_after. destruct (starts_with ic lit t); [|split; [easy | intros []; easy]].
  split.
  - destruct (take_while is_digit (drop (length lit) t)) as [|x d'] eqn:E; [easy|].
    intros [= <-]. apply take_while_meaning in E as (rest & E & Hd & Hr).
    repeat split; try easy. now exists rest.
  - intros (_ & Hne & Hd & rest & E & Hr).
    assert (T : take_while is_digit (drop (length lit) t) = d)
      by (apply take_while_meaning; now exists rest).
    rewrite T. destruct d; easy.
Qed.

(** The first digits of a line: a gap free of digits and of line
    terminators, then a non-empty run of digits taken to its end. *)
Lemma line_digits_meaning t d :
  line_digits t = Some d <->
  exists gap rest,
    t = gap ++ d ++ rest /\
    forallb (fun c => negb (is_line_terminator c) && negb (is_digit c)) gap = true /\
    d <> [] /\ forallb is_digit d = true /\
    match rest with [] => True | x :: _ => is_digit x = false end.
Proof.
  unfold line_digits.
  set (q := fun c => negb (is_line_terminator c) && negb (is_digit c)).
  split.
  - destruct (take_while is_digit (drop_while q t)) as [|x d'] eqn:E; [easy|].
    intros [= <-]. apply take_while_meaning in E as (rest & E & Hd & Hr).
    exists (take_while q t), rest. rewrite <- E, take_drop_while.
    repeat split; try easy. apply take_while_all.
  - intros (gap & rest & -> & Hg & Hne & Hd & Hr).
    rewrite drop_while_app_stop.
    + rewrite take_while_app_stop by easy. destruct d; easy.
    + exact Hg.
    + destruct d as [|x d]; [easy|]. simpl in Hd. apply andb_true_iff in Hd as [Hx _].
      simpl. unfold q. rewrite Hx. apply andb_false_r.
Qed.

(** An [https://] URL with [login] in it at the front of [t]. *)
Lemma prefixed_run_with_meaning pre word t u :
  prefixed_run_with pre word t = Some u <->
  exists run rest,
    t = pre ++ run ++ rest /\ u = pre ++ run /\
    forallb non_space run = true /\
    match rest with [] => True | x :: _ => is_space x = true end /\
    exists a b, run = a ++ word ++ b.
Proof.
  unfold prefixed_run_with. split.
  - destruct (starts_with false pre t) eqn:Hp; [|easy].
    apply starts_with_split in Hp.
    destruct (contains word (take_while non_space (drop (length pre) t))) eqn:Hc; [|easy].
    intros [= <-]. apply contains_occurs in Hc.
    exists (take_while non_space (drop (length pre) t)),
           (drop_while non_space (drop (length pre) t)).
    rewrite take_drop_while. repeat split; try easy.
    + apply take_while_all.
    + pose proof (take_while_stops non_space (drop (length pre) t)) as Hstop.
      destruct (drop_while non_space (drop (length pre) t)); [exact I|].
      unfold non_space in Hstop. now apply negb_false_iff in Hstop.
  - intros (run & rest & -> & -> & Hall & Hrest & Hocc).
    rewrite starts_with_app, drop_app_length.
    rewrite take_while_app_stop.
    + apply contains_occurs in Hocc. now rewrite Hocc.
    + exact Hall.
    + destruct rest; [exact I|]. unfold non_space. now rewrite Hrest.
Qed.

End Meaning.

(** ** The log scanner: results *)

Section ScannerResults.

Implicit Types (s d : jsstring).

(** What [first_valid_port] returns: the value of the first capture that
    is a valid port, and 3978 when there is none. *)
Lemma first_valid_port_first (caps : list (option jsstring)) i d :
  caps !! i = Some (Some d) -> valid_port d = true ->
  (forall j d', (j < i)%nat -> caps !! j = Some (Some d') -> valid_port d' = false) ->
  first_valid_port caps = Z.of_N (decimal d).
Proof.
  revert i; induction caps as [|o caps IH]; intros i Hi Hv Hbefore; [easy|].
  destruct i as [|i]; simpl in Hi.
  - injection Hi as ->. simpl. now rewrite Hv.
  - assert (E : first_valid_port (o :: caps) = first_valid_port caps).
    { destruct o as [d'|]; simpl; [|reflexivity].
      rewrite (Hbefore 0%nat d'); [reflexivity | lia | reflexivity]. }
    rewrite E. apply (IH i); [exact Hi | exact Hv |].
    intros j d' Hj Hl. apply (Hbefore (S j) d'); [lia | exact Hl].
Qed.

Lemma first_valid_port_default (caps : list (option jsstring)) :
  (forall j d', caps !! j = Some (Some d') -> valid_port d' = false) ->
  first_valid_port caps = 3978%Z.
Proof.
  induction caps as [|o caps IH]; intros H; [reflexivity|].
  assert (E : first_valid_port (o :: caps) = first_valid_port caps).
  { destruct o as [d'|]; simpl; [|reflexivity].
    rewrite (H 0%nat d'); reflexivity. }
  rewrite E. apply IH. intros j d' Hl. apply (H (S j) d'). exact Hl.
Qed.

Lemma extractAuthPort_captures s :
  extractAuthPort (Some s) =
  first_valid_port [localhost_capture s; loopback_capture s;
                    port_capture s; server_capture s].
Proof.
  destruct s as [|x s]; [reflexivity|].
  cbn [extractAuthPort]. apply scanPatterns_first_valid.
Qed.

(** C1. For every text, [extractAuthPort] looks at what the patterns
    [localhost:<digits>], [127.0.0.1:<digits>], [port <digits>] (any letter
    case) and [server...<digits>] (any letter case, shortest gap) capture
    at their first occurrence, in that order; the first capture whose
    number is strictly between 1000 and 65535 is the result, and the
    result is 3978 when there is none.  A text that is just [port 99999]
    gives 3978. *)
Theorem extractAuthPort_first_valid_capture :
  (forall s,
     extractAuthPort (Some s) =
     first_valid_port [localhost_capture s; loopback_capture s;
                       port_capture s; server_capture s])
  /\ extractAuthPort (Some (str "port 99999")) = 3978%Z.
Proof.
  split; [exact extractAuthPort_captures | vm_compute; reflexivity].
Qed.

(** C9. Whatever the input, [null] included, the port returned by
    [extractAuthPort] is strictly between 1000 and 65535. *)
Theorem extractAuthPort_in_range (output : option jsstring) :
  (1000 < extractAuthPort output < 65535)%Z.
Proof.
  destruct output as [[|x s]|]; cbn [extractAuthPort]; try lia.
  apply scanPatterns_range.
Qed.

(** C10. Only the first [localhost:<digits>] of a text is looked at: when
    its number is not strictly between 1000 and 65535, the result is
    decided by the three other patterns (or is 3978), whatever
    [localhost:<digits>] comes later. *)
Theorem extractAuthPort_first_localhost_only s d :
  localhost_capture s = Some d ->
  valid_port d = false ->
  extractAuthPort (Some s) =
  first_valid_port [loopback_capture s; port_capture s; server_capture s].
Proof.
  intros Hd Hv.
  rewrite extractAuthPort_captures.
  cbn [first_valid_port]. now rewrite Hd, Hv.
Qed.

(** The text [localhost:99999 then localhost:4321]: the later 4321 is not
    looked at. *)
Lemma extractAuthPort_first_localhost_only_witness :
  let s := str "localhost:99999 then localhost:4321" in
  localhost_capture s = Some (str "99999")
  /\ valid_port (str "99999") = false
  /\ extractAuthPort (Some s) = 3978%Z.
Proof.
  intros s.
  assert (H1 : localhost_capture s = Some (str "99999")) by (vm_compute; reflexivity).
  assert (H2 : valid_port (str "99999") = false) by (vm_compute; reflexivity).
  split; [exact H1|]. split; [exact H2|].
  rewrite (extractAuthPort_first_localhost_only s (str "99999") H1 H2).
  vm_compute. reflexivity.
Defined.

(** C3. On the sample log the scanner finds the login URL and port 3978. *)
Theorem sampleLog_scan :
  extractOAuthUrl (Some sampleLog)
  = Some (str "https://login.microsoftonline.com/common/oauth2/v2.0/authorize?client_id=abc")
  /\ extractAuthPort (Some sampleLog) = 3978%Z.
Proof. split; vm_compute; reflexivity. Qed.

(** C7. On the empty text and on [null], [extractAuthPort] returns 3978
    and [extractOAuthUrl] returns [null]. *)
Theorem empty_or_null_input :
  extractAuthPort (Some []) = 3978%Z /\ extractAuthPort None = 3978%Z
  /\ extractOAuthUrl (Some []) = None /\ extractOAuthUrl None = None.
Proof. repeat split. Qed.

(** C2, as amended. [extractOAuthUrl] returns the first occurrence of the
    login host prefix followed by at least one character that is not
    white space, with all that follows up to the next white space or the
    end of the text; when there is none, the first [https://] followed by
    a run free of white space in which [login] occurs, the whole run
    taken; when there is none either, [null].  It never fails. *)
Theorem extractOAuthUrl_first_login_url_or_null (output : option jsstring) :
  extractOAuthUrl output =
  match output with
  | Some s => first_login_url s
  | None => None
  end.
Proof.
  destruct output as [s|]; [|reflexivity].
  apply extractOAuthUrl_first_login_url.
Qed.

(** C2, as stated, fails: a host prefix with nothing after it is not
    returned, although it is the first substring that begins with the
    prefix and extends to the next white space. *)
Lemma extractOAuthUrl_skips_bare_host :
  let t := str "https://login.microsoftonline.com/ https://login.microsoftonline.com/abc" in
  first_at (prefixed_run login_host) t = Some (str "https://login.microsoftonline.com/")
  /\ extractOAuthUrl (Some t) = Some (str "https://login.microsoftonline.com/abc")
  /\ extractOAuthUrl (Some t) <> first_login_url_bare t.
Proof. vm_compute. repeat split. discriminate. Qed.

End ScannerResults.

(** ** Port forwarding URLs: results *)

Section ForwardingResults.

Implicit Types (env : gmap string jsstring) (port : Z).

(** C4, as amended. [generatePortForwardingUrl] returns
    [https://<name>-<port>.app.github.dev] when [CODESPACE_NAME] is set to
    a non-empty name, whatever the domain variable; else
    [https://<domain>-<port>.githubpreview.dev] when
    [GITHUB_CODESPACES_PORT_FORWARDING_DOMAIN] is set to a non-empty
    domain; else [http://localhost:<port>].  It depends on the port and
    on these two variables only.  With the name [foo] and port 3978 it
    gives [https://foo-3978.app.github.dev], and with neither variable
    set [http://localhost:3978]. *)
Theorem generatePortForwardingUrl_cases env port :
  (forall name,
     env !! "CODESPACE_NAME"%string = Some name -> name <> [] ->
     generatePortForwardingUrl env port
     = str "https://" ++ name ++ str "-" ++ Number_toString port ++ str ".app.github.dev")
  /\ (forall domain,
        truthy (env !! "CODESPACE_NAME"%string) = false ->
        env !! "GITHUB_CODESPACES_PORT_FORWARDING_DOMAIN"%string = Some domain ->
        domain <> [] ->
        generatePortForwardingUrl env port
        = str "https://" ++ domain ++ str "-" ++ Number_toString port
            ++ str ".githubpreview.dev")
  /\ (truthy (env !! "CODESPACE_NAME"%string) = false ->
      truthy (env !! "GITHUB_CODESPACES_PORT_FORWARDING_DOMAIN"%string) = false ->
      generatePortForwardingUrl env port = str "http://localhost:" ++ Number_toString port)
  /\ (forall env',
        env' !! "CODESPACE_NAME"%string = env !! "CODESPACE_NAME"%string ->
        env' !! "GITHUB_CODESPACES_PORT_FORWARDING_DOMAIN"%string
        = env !! "GITHUB_CODESPACES_PORT_FORWARDING_DOMAIN"%string ->
        generatePortForwardingUrl env' port = generatePortForwardingUrl env port)
  /\ (env !! "CODESPACE_NAME"%string = Some (str "foo") ->
      generatePortForwardingUrl env 3978 = str "https://foo-3978.app.github.dev")
  /\ (env !! "CODESPACE_NAME"%string = None ->
      env !! "GITHUB_CODESPACES_PORT_FORWARDING_DOMAIN"%string = None ->
      generatePortForwardingUrl env 3978 = str "http://localhost:3978").
Proof.
  unfold generatePortForwardingUrl. cbv zeta. repeat apply conj.
  - intros name H Hne. rewrite H. destruct name; [easy | reflexivity].
  - intros domain Hc H Hne. rewrite Hc, H. destruct domain; [easy | reflexivity].
  - intros Hc Hd. now rewrite Hc, Hd.
  - intros env' Hc Hd. now rewrite Hc, Hd.
  - intros H. now rewrite H.
  - intros Hc Hd. now rewrite Hc, Hd.
Qed.

(** Both variables set, the domain alone, and neither. *)
Lemma generatePortForwardingUrl_cases_witness :
  generatePortForwardingUrl {[ "CODESPACE_NAME"%string := str "foo";
                               "GITHUB_CODESPACES_PORT_FORWARDING_DOMAIN"%string := str "bar" ]}
                            3978
  = str "https://foo-3978.app.github.dev"
  /\ generatePortForwardingUrl
       {[ "GITHUB_CODESPACES_PORT_FORWARDING_DOMAIN"%string := str "bar" ]} 3000
     = str "https://bar-3000.githubpreview.dev"
  /\ generatePortForwardingUrl ∅ 3978 = str "http://localhost:3978".
Proof.
  split; [|split].
  - apply (proj1 (proj2 (proj2 (proj2 (proj2
             (generatePortForwardingUrl_cases
                {[ "CODESPACE_NAME"%string := str "foo";
                   "GITHUB_CODESPACES_PORT_FORWARDING_DOMAIN"%string := str "bar" ]}
                3978)))))).
    vm_compute. reflexivity.
  - apply (proj1 (proj2
             (generatePortForwardingUrl_cases
                {[ "GITHUB_CODESPACES_PORT_FORWARDING_DOMAIN"%string := str "bar" ]}
                3000)) (str "bar")).
    + vm_compute. reflexivity.
    + vm_compute. reflexivity.
    + discriminate.
  - apply (proj2 (proj2 (proj2 (proj2 (proj2
             (generatePortForwardingUrl_cases ∅ 3978)))))).
    + vm_compute. reflexivity.
    + vm_compute. reflexivity.
Defined.

(** C4, as stated, fails: a codespace name set to the empty string is
    passed over. *)
Lemma generatePortForwardingUrl_empty_name :
  let env : gmap string jsstring := {[ "CODESPACE_NAME"%string := [] ]} in
  env !! "CODESPACE_NAME"%string = Some []
  /\ generatePortForwardingUrl env 3978 = str "http://localhost:3978"
  /\ generatePortForwardingUrl env 3978
     <> str "https://" ++ [] ++ str "-" ++ Number_toString 3978 ++ str ".app.github.dev".
Proof. vm_compute. repeat split. discriminate. Qed.

End ForwardingResults.

(** ** Running commands: results *)

Section ProcessResults.

Variable process_cwd : jsstring.
Variable execAsync : jsstring -> jsstring -> Z -> world -> exec_outcome * world.

Implicit Types (command : jsstring) (opts : options) (st : streaming)
  (chunks : list (stream * jsstring)) (events : list child_event).

(** Chunks are accumulated and echoed; the promise is left as it is. *)
Lemma fold_data_events chunks st :
  fold_left on_event (data_events chunks) st =
  Streaming (acc_stdout st ++ collected StdoutStream chunks)
            (acc_stderr st ++ collected StderrStream chunks)
            (written (fold_left on_event (data_events chunks) st))
            (returned st).
Proof.
  revert st; induction chunks as [|[[|] chunk] chunks IH]; intros st.
  - simpl. rewrite !app_nil_r. now destruct st.
  - cbn [data_events map fold_left fst snd]. fold (data_events chunks).
    rewrite IH at 1. cbn [on_event acc_stdout acc_stderr returned collected flat_map fst snd].
    fold (collected StdoutStream chunks). fold (collected StderrStream chunks).
    now rewrite <- app_assoc.
  - cbn [data_events map fold_left fst snd]. fold (data_events chunks).
    rewrite IH at 1. cbn [on_event acc_stdout acc_stderr returned collected flat_map fst snd].
    fold (collected StdoutStream chunks). fold (collected StderrStream chunks).
    now rewrite <- app_assoc.
Qed.

(** A promise that is settled stays as it is. *)
Lemma returned_settled events st :
  returned st <> Pending ->
  returned (fold_left on_event events st) = returned st.
Proof.
  revert st; induction events as [|ev events IH]; intros st H; [reflexivity|].
  cbn [fold_left]. rewrite IH.
  - destruct ev as [[|] chunk|exit|msg]; cbn [on_event returned]; try reflexivity;
      destruct (returned st); easy.
  - destruct ev as [[|] chunk|exit|msg]; cbn [on_event returned]; try exact H;
      destruct (returned st); easy.
Qed.

(** The closure after the chunks of a child, before it closes or fails. *)
Lemma executeCommandStreaming_data command opts chunks :
  let st := executeCommandStreaming process_cwd command opts (data_events chunks) in
  acc_stdout st = collected StdoutStream chunks
  /\ acc_stderr st = collected StderrStream chunks
  /\ returned st = Pending.
Proof.
  unfold executeCommandStreaming. cbv zeta. rewrite fold_data_events.
  repeat split.
Qed.

Lemma executeCommandStreaming_app command opts events events' :
  executeCommandStreaming process_cwd command opts (events ++ events')
  = fold_left on_event events' (executeCommandStreaming process_cwd command opts events).
Proof. unfold executeCommandStreaming. apply fold_left_app. Qed.



(** When the child cannot be spawned the promise is rejected, however the
    events go on. *)
Lemma executeCommandStreaming_rejects_on_error command opts chunks msg events :
  returned (executeCommandStreaming process_cwd command opts
              (data_events chunks ++ Error msg :: events))
  = Rejected (Result false (collected StdoutStream chunks) msg (Num 1)).
Proof.
  destruct (executeCommandStreaming_data command opts chunks) as (Ho & He & Hp).
  rewrite executeCommandStreaming_app. cbn [fold_left].
  rewrite returned_settled.
  - cbn [on_event returned]. rewrite Hp, Ho. reflexivity.
  - cbn [on_event returned]. rewrite Hp. easy.
Qed.


(** When the command fails, the result of [executeCommand] says so and
    carries what [stderr] held, or else the message of the error. *)
Lemma executeCommand_failure command opts w error w1 :
  execAsync command (workingDir_of process_cwd opts) (timeout_of opts)
            (snd (announce process_cwd (str " Executing: ") command
                           (workingDir_of process_cwd opts) w))
  = (Failed error, w1) ->
  exists w',
    executeCommand process_cwd execAsync command opts w
    = (Returned (Result false
                        (or_else (error_stdout error) [])
                        (or_else (error_stderr error) (message error))
                        (if value_truthy (code error) then code error else Num 1)),
       w').
Proof.
  unfold executeCommand, try_catch, await_execAsync, console_error,
    write, mbind, M_bind, mret, M_ret.
  cbv zeta.
  destruct (announce process_cwd (str " Executing: ") command
                     (workingDir_of process_cwd opts) w) as [[[]|e] w0] eqn:Ea.
  - cbn [snd]. intros ->. eexists. reflexivity.
  - exfalso. revert Ea.
    unfold announce, console_log, write, mbind, M_bind, mret, M_ret.
    destruct (decide (workingDir_of process_cwd opts = process_cwd)); discriminate.
Qed.

End ProcessResults.

(** C5, where the code departs from it: a child that cannot be spawned
    (here for want of its working directory) makes
    [executeCommandStreaming] reject its promise, although the value it
    rejects with is a result object with [success] false. *)
Theorem executeCommandStreaming_spawn_error_rejects :
  returned (executeCommandStreaming (str "/workspaces/m365-test")
              (str "npm install") (Options (Some (str "/nonexistent")) None)
              [Error (str "spawn sh ENOENT"); Close (Some (-2)%Z)])
  = Rejected (Result false [] (str "spawn sh ENOENT") (Num 1)).
Proof. reflexivity. Qed.



(** ** The script: results *)

Section ReplaceResults.

Lemma match_here_colonOrPeriod x (s : jsstring) :
  match_here colonOrPeriod (x :: s) =
  if (x =? ch ":") || (x =? ch ".") then Some ([x], []) else None.
Proof.
  unfold match_here, colonOrPeriod. cbn [source ignoreCase matches cs_match char_eq].
  destruct ((x =? ch ":") || (x =? ch ".")); [|reflexivity].
  cbn [length]. replace (S (length s) - length s)%nat with 1%nat by lia.
  reflexivity.
Qed.

(** Replacing [/[:.]/g] by a hyphen turns every colon and every period
    into a hyphen and leaves the rest. *)
Lemma replace_colonOrPeriod (iso : jsstring) :
  String_replace_all iso colonOrPeriod (str "-") = map hyphenate iso.
Proof.
  unfold String_replace_all.
  assert (H : forall n (s : jsstring), (length s < n)%nat ->
            replace_loop colonOrPeriod (str "-") n s = map hyphenate s).
  { induction n as [|n IH]; intros s Hn; [lia|].
    destruct s as [|x s]; [reflexivity|].
    cbn [replace_loop map]. rewrite match_here_colonOrPeriod. unfold hyphenate at 1.
    simpl in Hn.
    destruct ((x =? ch ":") || (x =? ch ".")); cbn [length skipn];
      rewrite ?drop_0, IH by lia; reflexivity. }
  apply H. lia.
Qed.

End ReplaceResults.

Section ScriptResults.

Variable env : gmap string jsstring.
Variable process_cwd : jsstring.
Variable path_join : jsstring -> jsstring -> jsstring.
Variable execAsync : jsstring -> jsstring -> Z -> world -> exec_outcome * world.
Variable meanwhile : Z -> world -> world.
Variable colors : bool.
Variable os_mkdir : jsstring -> world -> option jsstring.
Variable os_copyFile : jsstring -> jsstring -> world -> jsstring + jsstring.

Local Abbreviation start :=
  (startAuthentication env process_cwd path_join execAsync meanwhile os_mkdir).
Local Abbreviation steps :=
  (authenticationSteps env process_cwd path_join execAsync meanwhile colors
                       os_mkdir os_copyFile).
Local Abbreviation scan := (scanAuthLog env path_join colors os_copyFile).
Local Abbreviation logPath := (authLogPath env path_join).
Local Abbreviation archive := (archivePath env path_join).


(** Once started, the steps are the scan of what the start left. *)
Lemma authenticationSteps_after_start iso w w1 :
  start w = (Returned tt, w1) ->
  steps iso w =
  try_catch (scan (archive iso)) (reportUnreadable process_cwd execAsync) w1.
Proof.
  intros H. unfold authenticationSteps. cbv zeta.
  unfold mbind at 1. unfold M_bind at 1. now rewrite H.
Qed.

(** The scan of a log in which a URL is found: the results are printed,
    then the copy is asked for. *)
Lemma scanAuthLog_found logFile w content :
  files w !! logPath = Some content ->
  truthy (extractOAuthUrl (Some content)) = true ->
  exists printed,
    (StdoutStream, [9989] ++ str " OAuth URL:" ++ str " "
                     ++ default [] (extractOAuthUrl (Some content)) ++ [LF])
      ∈ printed
    /\ (StdoutStream, [55357; 56588] ++ str " Auth server port:" ++ str " "
                        ++ inspect_number colors (extractAuthPort (Some content)) ++ [LF])
         ∈ printed
    /\ scan logFile w =
       match os_copyFile logPath logFile (World (files w) (console w ++ printed)) with
       | inl copied =>
           (Returned tt,
            World (<[logFile := copied]> (files w))
                  ((console w ++ printed)
                   ++ [(StdoutStream,
                        [55357; 56516] ++ str " Log saved to: " ++ logFile ++ [LF])]))
       | inr msg => (Thrown (FsError msg), World (files w) (console w ++ printed))
       end.
Proof.
  destruct w as [f c]. cbn [files console]. intros Hread Hurl.
  unfold scanAuthLog.
  unfold mbind at 1. unfold M_bind at 1. unfold fs_readFile at 1.
  cbn [files]. rewrite Hread. cbv beta zeta. rewrite Hurl.
  remember (default [] (extractOAuthUrl (Some content))) as url eqn:Eu. clear Eu.
  remember (inspect_number colors (extractAuthPort (Some content))) as port eqn:Ep.
  remember (generatePortForwardingUrl env (extractAuthPort (Some content)))
    as public eqn:Eq.
  clear Ep Eq.
  unfold console_log, console_log2.
  repeat (unfold mbind at 1; unfold M_bind at 1; unfold write at 1; cbn [files console]).
  unfold fs_copyFile. cbn [files console].
  rewrite <- !app_assoc.
  match goal with
  | |- context [os_copyFile _ _ {| files := f; console := c ++ ?l |}] => exists l
  end.
  split; [|split].
  - do 5 (apply elem_of_cons; right). apply elem_of_cons; left. reflexivity.
  - do 6 (apply elem_of_cons; right). apply elem_of_cons; left. reflexivity.
  - match goal with
    | |- context [os_copyFile ?a ?b ?v] => destruct (os_copyFile a b v) as [copied|msg]
    end; [|reflexivity].
    unfold write. cbn [files console]. reflexivity.
Qed.

(** The scan of a log in which no URL is found copies nothing. *)
Lemma scanAuthLog_not_found logFile w content :
  files w !! logPath = Some content ->
  truthy (extractOAuthUrl (Some content)) = false ->
  fst (scan logFile w) = Returned tt /\ files (snd (scan logFile w)) = files w.
Proof.
  intros Hread Hurl.
  unfold scanAuthLog, mbind, M_bind, fs_readFile. rewrite Hread. cbv zeta.
  rewrite Hurl.
  unfold console_log, console_log2, write, mret, M_ret.
  split; reflexivity.
Qed.

(** C6, as amended. In every run in which the log is read and a login
    URL is found in it, the URL and the port are printed and the
    operating system is then asked to copy the log to
    [<logs>/auth-<timestamp>.log], where the timestamp is the ISO-8601
    time of the run with every colon and period turned into a hyphen.
    When the copy is made, that path holds what was copied and the
    steps end by saying so; when the copy is refused, its error goes to
    the [catch] block and no file is written by the scan. *)
Theorem authenticationSteps_archives_log iso w w1 content :
  startAuthentication env process_cwd path_join execAsync meanwhile os_mkdir w
  = (Returned tt, w1) ->
  files w1 !! authLogPath env path_join = Some content ->
  truthy (extractOAuthUrl (Some content)) = true ->
  archivePath env path_join iso
  = path_join (LOGS_PATH env path_join) (str "auth-" ++ map hyphenate iso ++ str ".log")
  /\ exists printed,
       (StdoutStream, [9989] ++ str " OAuth URL:" ++ str " "
                        ++ default [] (extractOAuthUrl (Some content)) ++ [LF])
         ∈ printed
       /\ (StdoutStream, [55357; 56588] ++ str " Auth server port:" ++ str " "
                           ++ inspect_number colors (extractAuthPort (Some content))
                           ++ [LF])
            ∈ printed
       /\ authenticationSteps env process_cwd path_join execAsync meanwhile colors
                              os_mkdir os_copyFile iso w
          = match os_copyFile (authLogPath env path_join) (archivePath env path_join iso)
                              (World (files w1) (console w1 ++ printed)) with
            | inl copied =>
                (Returned tt,
                 World (<[archivePath env path_join iso := copied]> (files w1))
                       ((console w1 ++ printed)
                        ++ [(StdoutStream,
                             [55357; 56516] ++ str " Log saved to: "
                               ++ archivePath env path_join iso ++ [LF])]))
            | inr msg =>
                reportUnreadable process_cwd execAsync (FsError msg)
                                 (World (files w1) (console w1 ++ printed))
            end.
Proof.
  intros Hstart Hread Hurl.
  split; [unfold archivePath; now rewrite replace_colonOrPeriod|].
  destruct (scanAuthLog_found (archive iso) w1 content Hread Hurl)
    as (printed & Hu & Hp & Hscan).
  exists printed. split; [exact Hu|]. split; [exact Hp|].
  rewrite (authenticationSteps_after_start iso w w1 Hstart).
  unfold try_catch. rewrite Hscan.
  destruct (os_copyFile logPath (archive iso)
                        (World (files w1) (console w1 ++ printed))); reflexivity.
Qed.

End ScriptResults.

(** A run on a quiet system whose [auth.log] is the sample log: the
    archive holds the log. *)
Lemma authenticationSteps_archives_log_witness :
  files (snd (authenticationSteps ∅ (str "/workspaces/m365-test") posix_join quiet_exec
                                  still false willing_mkdir faithful_copyFile
                                  sample_time world_with_url))
    !! archivePath ∅ posix_join sample_time
  = Some sampleLog
  /\ archivePath ∅ posix_join sample_time
     = str "/workspaces/m365-test/logs/auth-2026-01-02T03-04-05-678Z.log".
Proof.
  split; [|vm_compute; reflexivity].
  assert (H0 : startAuthentication ∅ (str "/workspaces/m365-test") posix_join quiet_exec
                 still willing_mkdir world_with_url
               = (Returned tt,
                  snd (startAuthentication ∅ (str "/workspaces/m365-test") posix_join
                         quiet_exec still willing_mkdir world_with_url)))
    by (vm_compute; reflexivity).
  assert (H1 : files (snd (startAuthentication ∅ (str "/workspaces/m365-test") posix_join
                             quiet_exec still willing_mkdir world_with_url))
                 !! authLogPath ∅ posix_join = Some sampleLog)
    by (vm_compute; reflexivity).
  assert (H2 : truthy (extractOAuthUrl (Some sampleLog)) = true)
    by (vm_compute; reflexivity).
  destruct (authenticationSteps_archives_log
              ∅ (str "/workspaces/m365-test") posix_join quiet_exec still false
              willing_mkdir faithful_copyFile sample_time world_with_url _ sampleLog
              H0 H1 H2) as (_ & printed & _ & _ & Hrun).
  match type of Hrun with
  | _ = match faithful_copyFile ?a ?b ?v with _ => _ end =>
      assert (Hc : faithful_copyFile a b v = inl sampleLog)
        by (unfold faithful_copyFile; cbn [files]; now rewrite H1);
      rewrite Hc in Hrun
  end.
  rewrite Hrun. cbn [snd files]. apply lookup_insert_eq.
Defined.

(** C6, as stated, fails: a log that is read but holds no login URL is
    not copied; nor is a log with a URL when the copy is refused. *)
Lemma authenticationSteps_no_url_no_copy :
  let run := authenticationSteps ∅ (str "/workspaces/m365-test") posix_join quiet_exec
                                 still false willing_mkdir faithful_copyFile
                                 sample_time world_without_url in
  let refused := authenticationSteps ∅ (str "/workspaces/m365-test") posix_join quiet_exec
                                     still false willing_mkdir refusing_copyFile
                                     sample_time world_with_url in
  files (snd (startAuthentication ∅ (str "/workspaces/m365-test") posix_join quiet_exec
                                  still willing_mkdir world_without_url))
    !! authLogPath ∅ posix_join = Some (str "Starting authentication...")
  /\ fst run = Returned tt
  /\ archivePath ∅ posix_join sample_time
     = str "/workspaces/m365-test/logs/auth-2026-01-02T03-04-05-678Z.log"
  /\ files (snd run) !! archivePath ∅ posix_join sample_time = None
  /\ files (snd (startAuthentication ∅ (str "/workspaces/m365-test") posix_join quiet_exec
                                     still willing_mkdir world_with_url))
       !! authLogPath ∅ posix_join = Some sampleLog
  /\ fst refused = Returned tt
  /\ files (snd refused) !! archivePath ∅ posix_join sample_time = None.
Proof. vm_compute. repeat split. Qed.

(** * Further properties *)

(** ** Of the URL scanner *)

Section UrlProperties.

Implicit Types (s t u : jsstring).

Lemma forallb_non_space_app (a b : jsstring) :
  forallb non_space (a ++ b) = forallb non_space a && forallb non_space b.
Proof. apply forallb_app. Qed.

(** What the primary pattern finds somewhere in [s]. *)
Lemma primary_found_shape s u :
  first_at (prefixed_token login_host) s = Some u ->
  exists pre tok rest,
    s = pre ++ u ++ rest /\ u = login_host ++ tok /\ tok <> [] /\
    forallb non_space tok = true /\
    match rest with [] => True | x :: _ => is_space x = true end.
Proof.
  intros H. apply first_at_Some in H as (pre & t & -> & Ht & _).
  apply prefixed_token_meaning in Ht as (tok & rest & -> & -> & Hne & Hall & Hrest).
  exists pre, tok, rest. rewrite <- app_assoc. easy.
Qed.

(** What the fallback pattern finds somewhere in [s]. *)
Lemma fallback_found_shape s u :
  first_at (prefixed_run_with (str "https://") (str "login")) s = Some u ->
  exists pre run rest,
    s = pre ++ u ++ rest /\ u = str "https://" ++ run /\
    forallb non_space run = true /\
    match rest with [] => True | x :: _ => is_space x = true end /\
    substring (str "login") run.
Proof.
  intros H. apply first_at_Some in H as (pre & t & -> & Ht & _).
  apply prefixed_run_with_meaning in Ht as (run & rest & -> & -> & Hall & Hrest & Hocc).
  exists pre, run, rest. rewrite <- app_assoc. easy.
Qed.

Lemma extractOAuthUrl_found_shape s u :
  extractOAuthUrl (Some s) = Some u ->
  exists pre rest,
    s = pre ++ u ++ rest
    /\ starts_with false (str "https://") u = true
    /\ forallb non_space u = true
    /\ substring (str "login") u
    /\ match rest with [] => True | x :: _ => is_space x = true end.
Proof.
  rewrite extractOAuthUrl_first_login_url. unfold first_login_url.
  destruct (first_at (prefixed_token login_host) s) as [u'|] eqn:E.
  - intros [= ->]. apply primary_found_shape in E
      as (pre & tok & rest & -> & -> & Hne & Hall & Hrest).
    exists pre, rest.
    split; [reflexivity|]. split; [reflexivity|].
    split; [rewrite forallb_non_space_app, Hall; reflexivity|].
    split; [|exact Hrest].
    exists (str "https://"), (str ".microsoftonline.com/" ++ tok). reflexivity.
  - intros H. apply fallback_found_shape in H
      as (pre & run & rest & -> & -> & Hall & Hrest & a & b & ->).
    exists pre, rest.
    split; [reflexivity|]. split; [apply starts_with_app|].
    split; [rewrite forallb_non_space_app, Hall; reflexivity|].
    split; [|exact Hrest].
    exists (str "https://" ++ a), b. now rewrite <- app_assoc.
Qed.

(** X1. A URL returned by [extractOAuthUrl] is a piece of the text that
    starts with [https://], holds no white space, has [login] in it, and
    ends where the text ends or white space begins. *)
Theorem extractOAuthUrl_shape s u :
  extractOAuthUrl (Some s) = Some u ->
  exists pre rest,
    s = pre ++ u ++ rest
    /\ starts_with false (str "https://") u = true
    /\ forallb non_space u = true
    /\ substring (str "login") u
    /\ match rest with [] => True | x :: _ => is_space x = true end.
Proof. apply extractOAuthUrl_found_shape. Qed.

(** The sample log and the URL found in it. *)
Lemma extractOAuthUrl_shape_witness :
  exists pre rest,
    sampleLog
    = pre ++ str "https://login.microsoftonline.com/common/oauth2/v2.0/authorize?client_id=abc"
          ++ rest
    /\ starts_with false (str "https://")
         (str "https://login.microsoftonline.com/common/oauth2/v2.0/authorize?client_id=abc")
       = true.
Proof.
  assert (H : extractOAuthUrl (Some sampleLog)
              = Some (str "https://login.microsoftonline.com/common/oauth2/v2.0/authorize?client_id=abc"))
    by (vm_compute; reflexivity).
  destruct (extractOAuthUrl_shape _ _ H) as (pre & rest & E & Hs & _).
  exists pre, rest. split; [exact E | exact Hs].
Defined.

(** X2. A login-host URL anywhere in the text wins over every other
    [https://...login...] URL, even an earlier one: when the host prefix
    is followed by a character that is not white space, the result
    starts with the host prefix. *)
Theorem extractOAuthUrl_prefers_login_host pre x rest :
  non_space x = true ->
  exists tok,
    extractOAuthUrl (Some (pre ++ login_host ++ x :: rest)) = Some (login_host ++ tok)
    /\ tok <> [].
Proof.
  intros Hx. rewrite extractOAuthUrl_first_login_url. unfold first_login_url.
  destruct (first_at (prefixed_token login_host) (pre ++ login_host ++ x :: rest))
    as [u|] eqn:E.
  - apply primary_found_shape in E as (_ & tok & _ & _ & -> & Hne & _).
    exists tok. easy.
  - exfalso.
    pose proof (proj1 (first_at_None _ _) E pre (login_host ++ x :: rest) eq_refl) as H.
    unfold prefixed_token in H.
    rewrite starts_with_app, drop_app_length in H.
    simpl in H. rewrite Hx in H. discriminate.
Qed.

Lemma extractOAuthUrl_prefers_login_host_witness :
  exists tok,
    extractOAuthUrl (Some (str "see https://a.example/login first, then "
                           ++ login_host ++ ch "t" :: str "enant/oauth2 now"))
    = Some (login_host ++ tok) /\ tok <> [].
Proof.
  apply (extractOAuthUrl_prefers_login_host
           (str "see https://a.example/login first, then ") (ch "t")
           (str "enant/oauth2 now")).
  vm_compute. reflexivity.
Defined.

Lemma contains_app_r (w a b : jsstring) :
  contains w (a ++ w ++ b) = true.
Proof. apply contains_occurs. now exists a, b. Qed.

(** X3. A text in which [login] does not occur, or in which [https://]
    does not occur, has no login URL: the result is [null]. *)
Theorem extractOAuthUrl_none_without_login s :
  contains (str "login") s = false \/ contains (str "https://") s = false ->
  extractOAuthUrl (Some s) = None.
Proof.
  intros H.
  destruct (extractOAuthUrl (Some s)) as [u|] eqn:E; [|reflexivity].
  exfalso. apply extractOAuthUrl_found_shape in E
    as (pre & rest & -> & Hs & _ & (a & b & ->) & _).
  destruct H as [H|H].
  - rewrite <- !app_assoc in H.
    replace (pre ++ a ++ str "login" ++ b ++ rest)
      with ((pre ++ a) ++ str "login" ++ (b ++ rest)) in H
      by now rewrite <- !app_assoc.
    now rewrite contains_app_r in H.
  - apply starts_with_split in Hs. rewrite Hs in H.
    rewrite <- !app_assoc in H.
    now rewrite contains_app_r in H.
Qed.

Lemma extractOAuthUrl_none_without_login_witness :
  extractOAuthUrl (Some (str "Open https://example.com/signin to continue")) = None.
Proof.
  apply extractOAuthUrl_none_without_login. left. vm_compute. reflexivity.
Defined.

End UrlProperties.

(** ** Of the port scanner *)

Section PortProperties.

Implicit Types (s t d : jsstring).

(** A run of digits of the text. *)
Lemma digits_after_substring ic lit s d :
  first_at (digits_after ic lit) s = Some d ->
  substring d s /\ d <> [] /\ forallb is_digit d = true.
Proof.
  intros H. apply first_at_Some in H as (pre & t & -> & Ht & _).
  apply digits_after_meaning in Ht as (_ & Hne & Hd & rest & E & _).
  split; [|easy].
  exists (pre ++ take (length lit) t), rest.
  rewrite <- app_assoc. f_equal.
  rewrite <- (take_drop (length lit) t) at 1. now rewrite E.
Qed.

Lemma server_digits_substring s d :
  first_at server_digits s = Some d ->
  substring d s /\ d <> [] /\ forallb is_digit d = true.
Proof.
  intros H. apply first_at_Some in H as (pre & t & -> & Ht & _).
  unfold server_digits in Ht. destruct (starts_with true (str "server") t); [|easy].
  apply line_digits_meaning in Ht as (gap & rest & E & _ & Hne & Hd & _).
  split; [|easy].
  exists (pre ++ take (length (str "server")) t ++ gap), rest.
  rewrite <- !app_assoc. f_equal.
  rewrite <- (take_drop (length (str "server")) t) at 1. now rewrite E.
Qed.

Lemma first_valid_port_provenance (caps : list (option jsstring)) s :
  Forall (fun o => forall d, o = Some d ->
                   substring d s /\ d <> [] /\ forallb is_digit d = true) caps ->
  first_valid_port caps = 3978%Z
  \/ exists d, substring d s /\ d <> [] /\ forallb is_digit d = true
               /\ valid_port d = true /\ first_valid_port caps = Z.of_N (decimal d).
Proof.
  induction 1 as [|o caps Ho _ IH]; [now left|].
  destruct o as [d|]; simpl; [|exact IH].
  destruct (valid_port d) eqn:Hv; [|exact IH].
  right. exists d. destruct (Ho d eq_refl) as (? & ? & ?). easy.
Qed.

Lemma extractAuthPort_provenance s :
  extractAuthPort (Some s) = 3978%Z
  \/ exists d, substring d s /\ d <> [] /\ forallb is_digit d = true
               /\ valid_port d = true
               /\ extractAuthPort (Some s) = Z.of_N (decimal d).
Proof.
  rewrite extractAuthPort_captures. apply first_valid_port_provenance.
  constructor; [intros d H; apply (digits_after_substring _ _ _ _ H)|].
  constructor; [intros d H; apply (digits_after_substring _ _ _ _ H)|].
  constructor; [intros d H; apply (digits_after_substring _ _ _ _ H)|].
  constructor; [intros d H; apply (server_digits_substring _ _ H)|].
  constructor.
Qed.

(** X4. The port returned by [extractAuthPort] is 3978, or it is written
    in the text: it is the decimal value of a run of digits of the
    text. *)
Theorem extractAuthPort_written_in_text s :
  extractAuthPort (Some s) = 3978%Z
  \/ exists d, substring d s /\ d <> [] /\ forallb is_digit d = true
               /\ extractAuthPort (Some s) = Z.of_N (decimal d).
Proof.
  destruct (extractAuthPort_provenance s) as [H | (d & H1 & H2 & H3 & _ & H5)];
    [now left | right; now exists d].
Qed.

(** X5. A text without a digit gives the default port 3978. *)
Theorem extractAuthPort_no_digit s :
  forallb (fun c => negb (is_digit c)) s = true ->
  extractAuthPort (Some s) = 3978%Z.
Proof.
  intros Hs.
  destruct (extractAuthPort_provenance s)
    as [H | (d & (pre & post & ->) & Hne & Hd & _)]; [exact H|].
  exfalso. rewrite !forallb_app in Hs.
  apply andb_true_iff in Hs as [_ Hs]. apply andb_true_iff in Hs as [Hs _].
  destruct d as [|x d]; [easy|]. simpl in Hs, Hd.
  apply andb_true_iff in Hs as [Hx _]. apply andb_true_iff in Hd as [Hx' _].
  rewrite Hx' in Hx. discriminate.
Qed.

Lemma extractAuthPort_no_digit_witness :
  extractAuthPort (Some (str "the server listens on port five thousand")) = 3978%Z.
Proof.
  apply extractAuthPort_no_digit. vm_compute. reflexivity.
Defined.

End PortProperties.

(** ** Of the forwarding URLs *)

Section ForwardingProperties.

Implicit Types (env : gmap string jsstring) (port : Z).

Lemma str_inj (a b : string) : str a = str b -> a = b.
Proof.
  revert b; induction a as [|x a IH]; intros [|y b]; simpl; try easy.
  intros [= Hc H]. f_equal; [|now apply IH].
  unfold ch in Hc. rewrite <- (ascii_N_embedding x), <- (ascii_N_embedding y).
  now rewrite Hc.
Qed.

Lemma length_str (a : string) : length (str a) = String.length a.
Proof. induction a as [|x a IH]; simpl; [reflexivity | now rewrite IH]. Qed.

Lemma Number_toString_inj port1 port2 :
  Number_toString port1 = Number_toString port2 -> port1 = port2.
Proof. unfold Number_toString. intros H. apply str_inj in H. now apply (inj pretty). Qed.

Lemma generatePortForwardingUrl_same_port env port1 port2 :
  generatePortForwardingUrl env port1 = generatePortForwardingUrl env port2 ->
  port1 = port2.
Proof.
  unfold generatePortForwardingUrl. cbv zeta.
  destruct (truthy (env !! "CODESPACE_NAME"%string));
    [|destruct (truthy (env !! "GITHUB_CODESPACES_PORT_FORWARDING_DOMAIN"%string))];
    intros H.
  - do 3 apply app_inv_head in H. apply app_inv_tail in H.
    now apply Number_toString_inj.
  - do 3 apply app_inv_head in H. apply app_inv_tail in H.
    now apply Number_toString_inj.
  - apply app_inv_head in H. now apply Number_toString_inj.
Qed.

(** X7. For a given environment, [generatePortForwardingUrl] gives
    different URLs to different ports. *)
Theorem generatePortForwardingUrl_inj env port1 port2 :
  port1 <> port2 ->
  generatePortForwardingUrl env port1 <> generatePortForwardingUrl env port2.
Proof.
  intros Hne H. apply Hne. exact (generatePortForwardingUrl_same_port env _ _ H).
Qed.

Lemma generatePortForwardingUrl_inj_witness :
  generatePortForwardingUrl {[ "CODESPACE_NAME"%string := str "foo" ]} 3978
  <> generatePortForwardingUrl {[ "CODESPACE_NAME"%string := str "foo" ]} 3000.
Proof.
  apply (generatePortForwardingUrl_inj {[ "CODESPACE_NAME"%string := str "foo" ]}).
  lia.
Defined.

Lemma decimal_acc (s : jsstring) (acc : N) :
  fold_left (fun a c => 10 * a + (c - 48)) s acc
  = acc * 10 ^ N.of_nat (length s) + decimal s.
Proof.
  unfold decimal. revert acc; induction s as [|c s IH]; intros acc.
  - simpl. lia.
  - cbn [fold_left length]. rewrite IH, (IH (10 * 0 + (c - 48))).
    rewrite Nat2N.inj_succ, N.pow_succ_r'. lia.
Qed.

Lemma decimal_cons (c : N) (s : jsstring) :
  decimal (c :: s) = (c - 48) * 10 ^ N.of_nat (length s) + decimal s.
Proof.
  unfold decimal at 1. cbn [fold_left]. rewrite decimal_acc. lia.
Qed.

Lemma pretty_N_char_digit (d : N) :
  d < 10 -> ch (pretty_N_char d) = 48 + d.
Proof.
  intros H.
  assert (E : d = 0 \/ d = 1 \/ d = 2 \/ d = 3 \/ d = 4 \/ d = 5 \/ d = 6
              \/ d = 7 \/ d = 8 \/ d = 9) by lia.
  repeat (destruct E as [-> | E]; [reflexivity|]). now subst.
Qed.

(** Reading back what [pretty] wrote. *)
Lemma decimal_pretty_N_go (x : N) (s : string) :
  decimal (str (pretty_N_go x s))
  = x * 10 ^ N.of_nat (String.length s) + decimal (str s)
  /\ (forallb is_digit (str s) = true ->
      forallb is_digit (str (pretty_N_go x s)) = true).
Proof.
  revert s; induction (N.lt_wf_0 x) as [x _ IH]; intros s.
  destruct (decide (x = 0)) as [->|Hx].
  - rewrite pretty_N_go_0. split; [lia | easy].
  - rewrite pretty_N_go_step by lia.
    destruct (IH (x `div` 10) ltac:(apply N.div_lt; lia)
                 (String (pretty_N_char (x `mod` 10)) s)) as [E D].
    assert (Hm : x `mod` 10 < 10) by (apply N.mod_lt; lia).
    split.
    + rewrite E. cbn [str String.length]. rewrite decimal_cons, length_str.
      rewrite pretty_N_char_digit by exact Hm.
      rewrite Nat2N.inj_succ, N.pow_succ_r'.
      pose proof (N.div_mod x 10 ltac:(lia)) as Hdm.
      set (q := x `div` 10) in *. set (m := x `mod` 10) in *.
      set (P := 10 ^ N.of_nat (String.length s)).
      replace (48 + m - 48) with m by lia.
      clearbody q m P. rewrite Hdm. lia.
    + intros Hs. apply D. cbn [str forallb]. rewrite Hs, andb_true_r.
      rewrite pretty_N_char_digit by exact Hm.
      apply is_digit_range. clear - Hm.
      generalize dependent (x `mod` 10). intros m Hm. lia.
Qed.

Lemma localhost_url_capture (d : jsstring) :
  d <> [] -> forallb is_digit d = true ->
  localhost_capture (str "http://localhost:" ++ d) = Some d.
Proof.
  intros Hne Hd. unfold localhost_capture.
  assert (Hat : digits_after false (str "localhost:") (str "localhost:" ++ d) = Some d).
  { unfold digits_after. rewrite starts_with_app, drop_app_length.
    rewrite (take_while_id is_digit d Hd). destruct d; easy. }
  apply first_at_Some. exists (str "http://"), (str "localhost:" ++ d).
  split; [reflexivity|]. split; [exact Hat|].
  intros pre' t' E Hlen.
  assert (Hc : exists x rest, t' = x :: rest /\ x <> ch "l").
  { change (str "http://localhost:" ++ d)
      with ([104; 116; 116; 112; 58; 47; 47] ++ (str "localhost:" ++ d)) in E.
    simpl in Hlen.
    do 7 (destruct pre' as [|? pre'];
          [simpl in E; subst t'; eexists; eexists; split; [reflexivity | easy]|];
          simpl in E; injection E as <- E).
    simpl in Hlen. lia. }
  destruct Hc as (x & rest & -> & Hx).
  unfold digits_after. cbn [starts_with str]. unfold char_eq.
  destruct (N.eqb_spec x (ch "l")); [contradiction | reflexivity].
Qed.

(** X6. With no naming variable in force, the URL made for a port
    strictly between 1000 and 65535 is read back by [extractAuthPort] as
    that port. *)
Theorem extractAuthPort_of_localhost_url env port :
  truthy (env !! "CODESPACE_NAME"%string) = false ->
  truthy (env !! "GITHUB_CODESPACES_PORT_FORWARDING_DOMAIN"%string) = false ->
  (1000 < port < 65535)%Z ->
  extractAuthPort (Some (generatePortForwardingUrl env port)) = port.
Proof.
  intros Hc Hd Hp. unfold generatePortForwardingUrl. cbv zeta. rewrite Hc, Hd.
  destruct port as [|p|p]; try lia.
  change (Number_toString (Z.pos p)) with (str (pretty_N (N.pos p))).
  unfold pretty_N.
  destruct (decide (N.pos p = 0)) as [|_]; [lia|].
  destruct (decimal_pretty_N_go (N.pos p) "") as [E D].
  remember (str (pretty_N_go (N.pos p) "")) as d eqn:Ed. clear Ed.
  change (N.of_nat (String.length "")) with 0 in E.
  change (decimal (str "")) with 0 in E.
  rewrite N.pow_0_r, N.mul_1_r, N.add_0_r in E.
  specialize (D eq_refl).
  assert (Hne : d <> []) by (intros ->; discriminate E).
  rewrite extractAuthPort_captures, (localhost_url_capture d Hne D).
  cbn [first_valid_port]. unfold valid_port. rewrite E.
  replace (1000 <? N.pos p) with true by (symmetry; apply N.ltb_lt; lia).
  replace (N.pos p <? 65535) with true by (symmetry; apply N.ltb_lt; lia).
  reflexivity.
Qed.

Lemma extractAuthPort_of_localhost_url_witness :
  extractAuthPort (Some (generatePortForwardingUrl ∅ 56150)) = 56150%Z.
Proof.
  apply extractAuthPort_of_localhost_url.
  - vm_compute. reflexivity.
  - vm_compute. reflexivity.
  - lia.
Defined.

End ForwardingProperties.

(** ** Of the command runners *)

Section TrimProperties.

Implicit Types (s : jsstring).

Lemma last_rev s : last (rev s) = head s.
Proof. destruct s as [|x s]; [reflexivity|]. simpl. apply last_snoc. Qed.

Lemma head_rev s : head (rev s) = last s.
Proof. rewrite <- (rev_involutive s) at 2. symmetry. apply last_rev. Qed.

Lemma head_drop_while_space s :
  from_option is_space false (head (drop_while is_space s)) = false.
Proof.
  pose proof (take_while_stops is_space s) as H.
  destruct (drop_while is_space s); [reflexivity | exact H].
Qed.

(** What [trim] returns neither starts nor ends with white space. *)
Lemma trim_is_trimmed s : is_trimmed (trim s) = true.
Proof.
  unfold is_trimmed, trim.
  set (t := drop_while is_space s).
  apply andb_true_iff. split; apply negb_true_iff.
  - rewrite head_rev.
    destruct (drop_while is_space (rev t)) as [|y l] eqn:El; [reflexivity|].
    pose proof (take_drop_while is_space (rev t)) as E. rewrite El in E.
    assert (L : last (y :: l) = head t).
    { rewrite <- last_rev, <- E, last_app.
      destruct (last (y :: l)) eqn:Hl; [reflexivity|].
      apply last_None in Hl. discriminate. }
    rewrite L. apply head_drop_while_space.
  - rewrite last_rev. apply head_drop_while_space.
Qed.

End TrimProperties.

Section RunnerProperties.

Variable process_cwd : jsstring.
Variable execAsync : jsstring -> jsstring -> Z -> world -> exec_outcome * world.

Implicit Types (command : jsstring) (opts : options) (st : streaming)
  (events : list child_event).

Lemma truthy_not_zero (v : value) :
  (if value_truthy v then v else Num 1) <> Num 0
  /\ value_truthy (if value_truthy v then v else Num 1) = true.
Proof. destruct v as [|[| |]|[|]]; simpl; split; easy. Qed.

(** X8. [executeCommand] never throws.  Its result has [success] true
    exactly when [exitCode] is 0; on success the two outputs are trimmed,
    and on failure [exitCode] is a truthy value. *)
Theorem executeCommand_result_invariant command opts w :
  exists r w',
    executeCommand process_cwd execAsync command opts w = (Returned r, w')
    /\ (success r = true <-> exitCode r = Num 0)
    /\ (success r = true ->
        is_trimmed (stdout r) = true /\ is_trimmed (stderr r) = true)
    /\ (success r = false -> value_truthy (exitCode r) = true).
Proof.
  unfold executeCommand, try_catch, await_execAsync, console_error,
    write, mbind, M_bind, mret, M_ret.
  cbv zeta.
  destruct (announce process_cwd (str " Executing: ") command
                     (workingDir_of process_cwd opts) w) as [[[]|e] w0] eqn:Ea.
  - destruct (execAsync command (workingDir_of process_cwd opts) (timeout_of opts) w0)
      as [[out err|error] w1]; eexists; eexists; (split; [reflexivity|]);
      cbn [success stdout stderr exitCode thrown_code].
    + split; [easy|]. split; [|easy]. intros _. split; apply trim_is_trimmed.
    + destruct (truthy_not_zero (code error)) as [Hn Ht].
      split; [split; [easy | intros H; now apply Hn in H]|].
      split; [easy | intros _; exact Ht].
  - exfalso. revert Ea.
    unfold announce, console_log, write, mbind, M_bind, mret, M_ret.
    destruct (decide (workingDir_of process_cwd opts = process_cwd)); discriminate.
Qed.

Lemma fold_pending events st :
  returned st = Pending ->
  (returned (fold_left on_event events st) = Pending <-> forallb is_data events = true).
Proof.
  revert st; induction events as [|ev events IH]; intros st Hst; [easy|].
  cbn [fold_left forallb].
  destruct ev as [[|] chunk|exit|msg]; cbn [is_data andb].
  - apply IH. exact Hst.
  - apply IH. exact Hst.
  - rewrite returned_settled by (cbn [on_event returned]; rewrite Hst; easy).
    cbn [on_event returned]. rewrite Hst. easy.
  - rewrite returned_settled by (cbn [on_event returned]; rewrite Hst; easy).
    cbn [on_event returned]. rewrite Hst. easy.
Qed.

(** X10. The promise of [executeCommandStreaming] is pending exactly as
    long as the child has sent nothing but output: the first ['close'] or
    ['error'] settles it. *)
Theorem executeCommandStreaming_pending_iff command opts events :
  returned (executeCommandStreaming process_cwd command opts events) = Pending
  <-> forallb is_data events = true.
Proof. unfold executeCommandStreaming. cbv zeta. now apply fold_pending. Qed.

(** X11. Once the promise is settled, no later event changes it: a
    ['close'] after an ['error'] does not resolve it, and an ['error']
    after a ['close'] does not reject it. *)
Theorem executeCommandStreaming_settles_once command opts events events' :
  returned (executeCommandStreaming process_cwd command opts events) <> Pending ->
  returned (executeCommandStreaming process_cwd command opts (events ++ events'))
  = returned (executeCommandStreaming process_cwd command opts events).
Proof.
  intros H. rewrite executeCommandStreaming_app. now apply returned_settled.
Qed.

Lemma fold_echo events st :
  acc_stdout (fold_left on_event events st)
  = acc_stdout st ++ flat_map (payload StdoutStream) events
  /\ acc_stderr (fold_left on_event events st)
     = acc_stderr st ++ flat_map (payload StderrStream) events
  /\ written (fold_left on_event events st) = written st ++ flat_map echo events.
Proof.
  revert st; induction events as [|ev events IH]; intros st.
  - cbn [fold_left flat_map]. now rewrite !app_nil_r.
  - cbn [fold_left flat_map]. destruct (IH (on_event st ev)) as (-> & -> & ->).
    destruct ev as [[|] chunk|exit|msg];
      cbn [on_event acc_stdout acc_stderr written payload echo];
      rewrite <- ?app_assoc, ?app_nil_r; easy.
Qed.

(** X12. Whatever the order of events, every chunk is collected and
    written to the console once, in order, with its mark; ['close'] and
    ['error'] write nothing, and chunks that come after the promise is
    settled are still echoed. *)
Theorem executeCommandStreaming_echoes command opts events :
  acc_stdout (executeCommandStreaming process_cwd command opts events)
  = flat_map (payload StdoutStream) events
  /\ acc_stderr (executeCommandStreaming process_cwd command opts events)
     = flat_map (payload StderrStream) events
  /\ written (executeCommandStreaming process_cwd command opts events)
     = written (executeCommandStreaming process_cwd command opts [])
       ++ flat_map echo events.
Proof.
  unfold executeCommandStreaming. cbv zeta.
  match goal with
  | |- context [fold_left on_event events ?st0] =>
      destruct (fold_echo events st0) as (-> & -> & ->)
  end.
  easy.
Qed.

Lemma is_zero_exit_value exit : is_zero exit = true <-> exit_value exit = Num 0.
Proof. destruct exit as [[| |]|]; simpl; split; easy. Qed.

Lemma fold_settled_well events st :
  settled_well (returned st) -> settled_well (returned (fold_left on_event events st)).
Proof.
  revert st; induction events as [|ev events IH]; intros st H; [exact H|].
  cbn [fold_left]. apply IH.
  destruct ev as [[|] chunk|exit|msg]; cbn [on_event returned]; try exact H.
  - destruct (returned st); try exact H. cbn [settle settled_well success exitCode stdout stderr].
    split; [apply is_zero_exit_value|]. split; apply trim_is_trimmed.
  - destruct (returned st); try exact H. cbn [settle settled_well success exitCode]. easy.
Qed.

(** X13. Whatever the events, a resolved promise of
    [executeCommandStreaming] holds a result whose [success] is true
    exactly when its [exitCode] is 0 and whose outputs are trimmed, and a
    rejected one holds a result with [success] false and [exitCode] 1. *)
Theorem executeCommandStreaming_settled_well command opts events :
  settled_well (returned (executeCommandStreaming process_cwd command opts events)).
Proof. unfold executeCommandStreaming. cbv zeta. now apply fold_settled_well. Qed.

End RunnerProperties.

(** A child that fails to spawn and then closes: the promise stays
    rejected. *)
Lemma executeCommandStreaming_settles_once_witness :
  returned (executeCommandStreaming (str "/workspaces/m365-test") (str "npm install")
              no_options ([Error (str "spawn sh ENOENT")] ++ [Close (Some (-2)%Z)]))
  = returned (executeCommandStreaming (str "/workspaces/m365-test") (str "npm install")
                no_options [Error (str "spawn sh ENOENT")]).
Proof.
  apply executeCommandStreaming_settles_once. vm_compute. discriminate.
Defined.

(** ** Of the script *)

Section ScriptProperties.

Variable env : gmap string jsstring.
Variable process_cwd : jsstring.
Variable path_join : jsstring -> jsstring -> jsstring.
Variable execAsync : jsstring -> jsstring -> Z -> world -> exec_outcome * world.
Variable meanwhile : Z -> world -> world.
Variable colors : bool.
Variable os_mkdir : jsstring -> world -> option jsstring.
Variable os_copyFile : jsstring -> jsstring -> world -> jsstring + jsstring.

Local Abbreviation start :=
  (startAuthentication env process_cwd path_join execAsync meanwhile os_mkdir).
Local Abbreviation scan := (scanAuthLog env path_join colors os_copyFile).
Local Abbreviation logPath := (authLogPath env path_join).

Lemma hyphenate_clean c : hyphenate c <> ch ":" /\ hyphenate c <> ch ".".
Proof.
  unfold hyphenate.
  destruct (N.eqb_spec c (ch ":")) as [->|H1]; [easy|].
  destruct (N.eqb_spec c (ch ".")) as [->|H2]; easy.
Qed.

Lemma hyphenate_idem c : hyphenate (hyphenate c) = hyphenate c.
Proof.
  unfold hyphenate.
  destruct ((c =? ch ":") || (c =? ch ".")) eqn:E; [reflexivity | now rewrite E].
Qed.

(** X14. Replacing [/[:.]/g] by a hyphen keeps the length of the
    timestamp, leaves no colon and no period in it, keeps every other
    character where it was, and changes nothing when done twice. *)
Theorem replace_colonOrPeriod_clean (iso : jsstring) :
  let timestamp := String_replace_all iso colonOrPeriod (str "-") in
  length timestamp = length iso
  /\ Forall (fun c => c <> ch ":" /\ c <> ch ".") timestamp
  /\ (forall i c, iso !! i = Some c -> c <> ch ":" -> c <> ch "." ->
                  timestamp !! i = Some c)
  /\ String_replace_all timestamp colonOrPeriod (str "-") = timestamp.
Proof.
  cbv zeta. rewrite !replace_colonOrPeriod.
  split; [apply length_map|]. split; [|split].
  - apply Forall_forall. intros c Hc. apply list_elem_of_In in Hc.
    apply in_map_iff in Hc as (c0 & <- & _).
    apply hyphenate_clean.
  - intros i c Hi H1 H2. rewrite list_lookup_fmap, Hi. cbn. f_equal.
    unfold hyphenate.
    destruct (N.eqb_spec c (ch ":")); [contradiction|].
    destruct (N.eqb_spec c (ch ".")); [contradiction | reflexivity].
  - rewrite map_map. apply map_ext. intros c. apply hyphenate_idem.
Qed.



(** What the scan leaves behind, in each of its cases. *)
Lemma scanAuthLog_effects logFile w :
  exists c0 fs' printed,
    scan logFile w = (c0, World fs' (console w ++ printed))
    /\ (fs' = files w \/ exists content, fs' = <[logFile := content]> (files w)).
Proof.
  destruct (files w !! logPath) as [content|] eqn:Hread.
  - destruct (truthy (extractOAuthUrl (Some content))) eqn:Hurl.
    + destruct (scanAuthLog_found env path_join colors os_copyFile logFile w content
                  Hread Hurl) as (printed & _ & _ & ->).
      destruct (os_copyFile logPath logFile (World (files w) (console w ++ printed)))
        as [copied|msg].
      * do 3 eexists. rewrite <- app_assoc. split; [reflexivity|].
        right. now exists copied.
      * do 3 eexists. split; [reflexivity | now left].
    + destruct w as [f c]. cbn [files console] in *.
      unfold scanAuthLog.
      unfold mbind at 1. unfold M_bind at 1. unfold fs_readFile at 1.
      cbn [files]. rewrite Hread. cbv beta zeta. rewrite Hurl.
      unfold console_log, console_log2.
      repeat (unfold mbind at 1; unfold M_bind at 1; unfold write at 1;
              cbn [files console]).
      unfold write. cbn [files console].
      rewrite <- !app_assoc. do 3 eexists. split; [reflexivity | now left].
  - destruct w as [f c]. cbn [files console] in *.
    unfold scanAuthLog.
    unfold mbind at 1. unfold M_bind at 1. unfold fs_readFile at 1.
    cbn [files]. rewrite Hread.
    exists (Thrown (no_such_file logPath)), f, [].
    split; [now rewrite app_nil_r | now left].
Qed.

(** X16. The scan of the log writes no file but the archival copy, and
    only adds to the console: every other file, the log itself included
    when it is not the archive path, is left as it was. *)
Theorem scanAuthLog_frame logFile w :
  (forall path, path <> logFile ->
     files (snd (scanAuthLog env path_join colors os_copyFile logFile w)) !! path
     = files w !! path)
  /\ exists printed,
       console (snd (scanAuthLog env path_join colors os_copyFile logFile w))
       = console w ++ printed.
Proof.
  destruct (scanAuthLog_effects logFile w) as (c0 & fs' & printed & -> & Hf).
  cbn [snd files console].
  split; [|now exists printed].
  intros path Hne. destruct Hf as [-> | (content & ->)]; [reflexivity|].
  now apply lookup_insert_ne.
Qed.

End ScriptProperties.


(** ** Scanning again *)

Section Rescan.

Implicit Types (s t u : jsstring).

Lemma first_at_here {A} (f : jsstring -> option A) s a :
  f s = Some a -> first_at f s = Some a.
Proof. intros H. destruct s; simpl; now rewrite H. Qed.

(** The primary pattern matches at the front of [t] exactly when the host
    prefix is there with a character that is not white space after it. *)
Lemma prefixed_token_is_Some pre t :
  is_Some (prefixed_token pre t) <->
  exists x rest, t = pre ++ x :: rest /\ non_space x = true.
Proof.
  unfold prefixed_token. split.
  - destruct (starts_with false pre t) eqn:Hp; [|intros [? [=]]].
    apply starts_with_split in Hp.
    destruct (drop (length pre) t) as [|x rest]; [intros [? [=]]|].
    simpl. destruct (non_space x) eqn:Hx; [|intros [? [=]]].
    intros _. now exists x, rest.
  - intros (x & rest & -> & Hx).
    rewrite starts_with_app, drop_app_length. simpl. rewrite Hx. eauto.
Qed.

(** A text in which the primary pattern finds nothing has no piece in
    which it finds something. *)
Lemma primary_none_inside pre u rest :
  first_at (prefixed_token login_host) (pre ++ u ++ rest) = None ->
  first_at (prefixed_token login_host) u = None.
Proof.
  intros H. apply first_at_None. intros pre' t' ->.
  destruct (prefixed_token login_host t') as [v|] eqn:E; [|reflexivity].
  exfalso.
  destruct (proj1 (prefixed_token_is_Some login_host t') (ex_intro _ v E))
    as (x & r & -> & Hx).
  pose proof (proj1 (first_at_None _ _) H (pre ++ pre')
                (login_host ++ x :: (r ++ rest))) as Hn.
  assert (Hs : is_Some (prefixed_token login_host (login_host ++ x :: (r ++ rest))))
    by (apply prefixed_token_is_Some; now exists x, (r ++ rest)).
  rewrite Hn in Hs; [now destruct Hs|].
  now rewrite <- !app_assoc.
Qed.

Lemma extractOAuthUrl_again s u :
  extractOAuthUrl (Some s) = Some u -> extractOAuthUrl (Some u) = Some u.
Proof.
  rewrite !extractOAuthUrl_first_login_url. unfold first_login_url.
  destruct (first_at (prefixed_token login_host) s) as [u'|] eqn:E.
  - intros [= ->]. apply primary_found_shape in E
      as (pre & tok & rest & _ & -> & Hne & Hall & _).
    rewrite (first_at_here _ _ (login_host ++ tok)); [reflexivity|].
    apply prefixed_token_meaning. exists tok, []. rewrite app_nil_r. easy.
  - intros H. pose proof H as H'. apply fallback_found_shape in H
      as (pre & run & rest & Hs & -> & Hall & _ & Hocc).
    rewrite Hs in E. apply primary_none_inside in E. rewrite E.
    apply first_at_here. apply prefixed_run_with_meaning.
    exists run, []. rewrite app_nil_r. easy.
Qed.

(** X17. Scanning a URL that [extractOAuthUrl] returned gives that URL
    back. *)
Theorem extractOAuthUrl_idempotent s u :
  extractOAuthUrl (Some s) = Some u -> extractOAuthUrl (Some u) = Some u.
Proof. apply extractOAuthUrl_again. Qed.

Lemma extractOAuthUrl_idempotent_witness :
  extractOAuthUrl
    (Some (str "https://login.microsoftonline.com/common/oauth2/v2.0/authorize?client_id=abc"))
  = Some (str "https://login.microsoftonline.com/common/oauth2/v2.0/authorize?client_id=abc").
Proof.
  apply (extractOAuthUrl_idempotent sampleLog). vm_compute. reflexivity.
Defined.

End Rescan.

(** ** Scanning a log that grows *)

Section Growth.

Implicit Types (s t u tok more : jsstring).

Lemma app_eq_prefix {A} (a b c d : list A) :
  a ++ b = c ++ d -> (length c <= length a)%nat -> exists e, a = c ++ e /\ d = e ++ b.
Proof.
  revert a; induction c as [|y c IH]; intros a E Hl.
  - exists a. simpl in E. split; [reflexivity | now symmetry].
  - destruct a as [|x a]; [simpl in Hl; lia|].
    simpl in E. injection E as -> E. simpl in Hl.
    destruct (IH a E ltac:(lia)) as (e & -> & ->). now exists e.
Qed.

Lemma last_non_space_app (l : jsstring) x :
  l <> [] -> forallb non_space l = true -> is_space x = true ->
  forall pre s, s ++ [x] <> pre ++ l.
Proof.
  intros Hne Hall Hx pre s E.
  destruct (proj2 (last_is_Some l) Hne) as [y Hy].
  assert (L : last (pre ++ l) = Some y)
    by (rewrite last_app, Hy; reflexivity).
  rewrite <- E, last_snoc in L. injection L as ->.
  apply last_Some in Hy as (l' & ->).
  rewrite forallb_app in Hall. apply andb_true_iff in Hall as [_ Hall].
  simpl in Hall. unfold non_space in Hall. now rewrite Hx in Hall.
Qed.

(** The primary pattern still finds, in a text that ended with white
    space and has grown, what it found before. *)
Lemma primary_stable s x tok more :
  is_space x = true ->
  first_at (prefixed_token login_host) (s ++ [x]) = Some (login_host ++ tok) ->
  first_at (prefixed_token login_host) ((s ++ [x]) ++ more) = Some (login_host ++ tok).
Proof.
  intros Hx H.
  apply first_at_Some in H as (pre & t & E & Ht & Hmin).
  apply prefixed_token_meaning in Ht as (tok' & rest0 & -> & Eu & Hne & Hall & Hrest).
  apply app_inv_head in Eu. subst tok'.
  assert (Hr : exists z r0, rest0 = z :: r0 /\ is_space z = true).
  { destruct rest0 as [|z r0]; [|now exists z, r0].
    exfalso. rewrite app_nil_r in E.
    apply (last_non_space_app tok x Hne Hall Hx (pre ++ login_host) s).
    now rewrite <- app_assoc. }
  destruct Hr as (z & r0 & -> & Hz).
  apply first_at_Some. exists pre, ((login_host ++ tok ++ z :: r0) ++ more).
  split; [now rewrite E, <- app_assoc|]. split.
  - apply prefixed_token_meaning. exists tok, (z :: r0 ++ more).
    rewrite <- !app_assoc. easy.
  - intros pre' t'' E' Hlen.
    assert (Hs : (length pre' <= length (s ++ [x]))%nat).
    { rewrite E, length_app. lia. }
    destruct (app_eq_prefix _ _ _ _ E' Hs) as (t0 & E0 & ->).
    pose proof (Hmin pre' t0 E0 Hlen) as Hnone.
    destruct (prefixed_token login_host (t0 ++ more)) as [v|] eqn:Ev; [|reflexivity].
    exfalso.
    destruct (proj1 (prefixed_token_is_Some login_host (t0 ++ more)) (ex_intro _ v Ev))
      as (y & r & Ey & Hy).
    assert (Hl : (length (login_host ++ [y]) <= length t0)%nat).
    { assert (L : length (s ++ [x])
                  = (length pre + length (login_host ++ tok ++ z :: r0))%nat)
        by (rewrite E; apply length_app).
      assert (L0 : length (s ++ [x]) = (length pre' + length t0)%nat)
        by (rewrite E0; apply length_app).
      rewrite !length_app in *. simpl in *. lia. }
    replace (login_host ++ y :: r) with ((login_host ++ [y]) ++ r) in Ey
      by now rewrite <- app_assoc.
    destruct (app_eq_prefix _ _ _ _ Ey Hl) as (e & -> & _).
    assert (Hsome : is_Some (prefixed_token login_host ((login_host ++ [y]) ++ e))).
    { apply prefixed_token_is_Some. exists y, e. now rewrite <- app_assoc. }
    rewrite Hnone in Hsome. now destruct Hsome.
Qed.

(** X18. A login-host URL found in a log that ends with white space is
    still the URL found when the log has grown: later output does not
    change it. *)
Theorem extractOAuthUrl_stable_under_growth s x tok more :
  is_space x = true -> tok <> [] ->
  extractOAuthUrl (Some (s ++ [x])) = Some (login_host ++ tok) ->
  extractOAuthUrl (Some ((s ++ [x]) ++ more)) = Some (login_host ++ tok).
Proof.
  intros Hx Hne H.
  assert (Hp : first_at (prefixed_token login_host) (s ++ [x]) = Some (login_host ++ tok)).
  { pose proof (extractOAuthUrl_found_shape _ _ H) as (pre & rest & E & _ & Hall & _).
    rewrite extractOAuthUrl_first_login_url in H. unfold first_login_url in H.
    destruct (first_at (prefixed_token login_host) (s ++ [x])) as [u'|] eqn:E1;
      [exact H|].
    exfalso. rewrite E in E1. apply primary_none_inside in E1.
    rewrite forallb_app in Hall. apply andb_true_iff in Hall as [_ Hall].
    rewrite (first_at_here _ _ (login_host ++ tok)) in E1; [discriminate|].
    apply prefixed_token_meaning. exists tok, []. rewrite app_nil_r. easy. }
  rewrite extractOAuthUrl_first_login_url. unfold first_login_url.
  now rewrite (primary_stable s x tok more Hx Hp).
Qed.

Lemma extractOAuthUrl_stable_under_growth_witness :
  extractOAuthUrl
    (Some ((str "Visit https://login.microsoftonline.com/common" ++ [LF])
           ++ str "Or https://login.microsoftonline.com/other"))
  = Some (login_host ++ str "common").
Proof.
  apply (extractOAuthUrl_stable_under_growth
           (str "Visit https://login.microsoftonline.com/common") LF (str "common")
           (str "Or https://login.microsoftonline.com/other")).
  - reflexivity.
  - discriminate.
  - vm_compute. reflexivity.
Defined.

End Growth.

Section PortGrowth.

Implicit Types (s t d lit more : jsstring).

Lemma last_outside_class (p : char -> bool) (l : jsstring) x :
  l <> [] -> forallb p l = true -> p x = false ->
  forall pre s, s ++ [x] <> pre ++ l.
Proof.
  intros Hne Hall Hx pre s E.
  destruct (proj2 (last_is_Some l) Hne) as [y Hy].
  assert (L : last (pre ++ l) = Some y)
    by (rewrite last_app, Hy; reflexivity).
  rewrite <- E, last_snoc in L. injection L as ->.
  apply last_Some in Hy as (l' & ->).
  rewrite forallb_app in Hall. apply andb_true_iff in Hall as [_ Hall].
  simpl in Hall. now rewrite Hx in Hall.
Qed.

Lemma digits_after_is_Some lit t :
  is_Some (digits_after false lit t) <->
  exists y rest, t = lit ++ y :: rest /\ is_digit y = true.
Proof.
  unfold digits_after. split.
  - destruct (starts_with false lit t) eqn:Hp; [|intros [? [=]]].
    apply starts_with_split in Hp.
    destruct (drop (length lit) t) as [|y rest]; [intros [? [=]]|].
    simpl. destruct (is_digit y) eqn:Hy; [|intros [? [=]]].
    intros _. now exists y, rest.
  - intros (y & rest & -> & Hy).
    rewrite starts_with_app, drop_app_length. simpl. rewrite Hy. eauto.
Qed.

(** A [lit<digits>] pattern still captures, in a text that ended with a
    character other than a digit and has grown, what it captured
    before. *)
Lemma digits_after_stable lit s x d more :
  is_digit x = false ->
  first_at (digits_after false lit) (s ++ [x]) = Some d ->
  first_at (digits_after false lit) ((s ++ [x]) ++ more) = Some d.
Proof.
  intros Hx H.
  apply first_at_Some in H as (pre & t & E & Ht & Hmin).
  apply digits_after_meaning in Ht as (Hp & Hne & Hall & rest0 & Ed & Hrest).
  apply starts_with_split in Hp. rewrite Ed in Hp. subst t.
  assert (Hr : exists z r0, rest0 = z :: r0 /\ is_digit z = false).
  { destruct rest0 as [|z r0]; [|now exists z, r0].
    exfalso. rewrite app_nil_r in E.
    apply (last_outside_class is_digit d x Hne Hall Hx (pre ++ lit) s).
    now rewrite <- app_assoc. }
  destruct Hr as (z & r0 & -> & Hz).
  apply first_at_Some. exists pre, ((lit ++ d ++ z :: r0) ++ more).
  split; [now rewrite E, <- app_assoc|]. split.
  - apply digits_after_meaning. rewrite <- !app_assoc.
    split; [apply starts_with_app|]. split; [exact Hne|]. split; [exact Hall|].
    exists (z :: r0 ++ more). rewrite drop_app_length. easy.
  - intros pre' t'' E' Hlen.
    assert (Hs : (length pre' <= length (s ++ [x]))%nat).
    { rewrite E, length_app. lia. }
    destruct (app_eq_prefix _ _ _ _ E' Hs) as (t0 & E0 & ->).
    pose proof (Hmin pre' t0 E0 Hlen) as Hnone.
    destruct (digits_after false lit (t0 ++ more)) as [v|] eqn:Ev; [|reflexivity].
    exfalso.
    destruct (proj1 (digits_after_is_Some lit (t0 ++ more)) (ex_intro _ v Ev))
      as (y & r & Ey & Hy).
    assert (Hl : (length (lit ++ [y]) <= length t0)%nat).
    { assert (L : length (s ++ [x])
                  = (length pre + length (lit ++ d ++ z :: r0))%nat)
        by (rewrite E; apply length_app).
      assert (L0 : length (s ++ [x]) = (length pre' + length t0)%nat)
        by (rewrite E0; apply length_app).
      destruct d as [|d0 d]; [easy|].
      rewrite !length_app in *. simpl in *. lia. }
    replace (lit ++ y :: r) with ((lit ++ [y]) ++ r) in Ey
      by now rewrite <- app_assoc.
    destruct (app_eq_prefix _ _ _ _ Ey Hl) as (e & -> & _).
    assert (Hsome : is_Some (digits_after false lit ((lit ++ [y]) ++ e))).
    { apply digits_after_is_Some. exists y, e. now rewrite <- app_assoc. }
    rewrite Hnone in Hsome. now destruct Hsome.
Qed.

(** X19. A valid port read after the first [localhost:] of a log that
    ends with a character other than a digit is still the port read
    when the log has grown: later output does not change it. *)
Theorem extractAuthPort_stable_under_growth s x d more :
  is_digit x = false ->
  localhost_capture (s ++ [x]) = Some d ->
  valid_port d = true ->
  extractAuthPort (Some ((s ++ [x]) ++ more)) = extractAuthPort (Some (s ++ [x]))
  /\ extractAuthPort (Some (s ++ [x])) = Z.of_N (decimal d).
Proof.
  intros Hx Hd Hv.
  pose proof (digits_after_stable _ s x d more Hx Hd) as Hd'.
  rewrite !extractAuthPort_captures.
  fold (localhost_capture ((s ++ [x]) ++ more)) in Hd'.
  rewrite Hd, Hd'. cbn [first_valid_port]. now rewrite Hv.
Qed.

Lemma extractAuthPort_stable_under_growth_witness :
  extractAuthPort (Some ((str "Listening on http://localhost:4321" ++ [LF])
                         ++ str "Retry on localhost:5000, server port 6000"))
  = 4321%Z.
Proof.
  destruct (extractAuthPort_stable_under_growth
              (str "Listening on http://localhost:4321") LF (str "4321")
              (str "Retry on localhost:5000, server port 6000"))
    as [H1 H2].
  - reflexivity.
  - vm_compute. reflexivity.
  - vm_compute. reflexivity.
  - rewrite H1, H2. vm_compute. reflexivity.
Defined.

End PortGrowth.
